(** * Swarm pipeline engine: dependency graph, cycle detection, wave
    scheduling, state tracker and agent executor.

    Shallow embedding of the swarm extension:
    - [swarm/dag.ts] ([buildDependencyGraph], [hasExplicitDeps],
      [detectCycles], [buildExecutionWaves]), which the sources hold as the
      second part of [run-pipeline.ts];
    - [swarm/state.ts] ([StateTracker]);
    - [swarm/executor.ts] ([executeSwarmAgent], [buildSystemPrompt]), which
      the sources hold as the second part of [swarm/state.ts].

    A JavaScript [Map] and [Set] iterate in insertion order, so both are
    modelled as insertion-ordered lists; an object used as a map is a
    [gmap], with a flag for the one name, [__proto__], under which an
    assignment sets the prototype of the object; exceptions are modelled
    by a [result] type; a [while] loop is a function with fuel, proved to
    have enough of it. *)

From Stdlib Require Import ZArith.
From stdpp Require Import base list strings gmap sorting pretty.

Set Warnings "-register-all,-clear-no-such-hyp".


(* ===================================================================== *)
(** ** JavaScript containers *)
(* ===================================================================== *)

(** [Map<string, V>]: entries in insertion order, one entry per key. *)
Abbreviation JsMap V := (list (string * V)) (only parsing).

Definition map_keys {V} (m : JsMap V) : list string := m.*1.

Fixpoint map_get {V} (k : string) (m : JsMap V) : option V :=
  match m with
  | [] => None
  | (k', v) :: m' => if decide (k' = k) then Some v else map_get k m'
  end.

Definition map_has {V} (k : string) (m : JsMap V) : bool :=
  match map_get k m with Some _ => true | None => false end.

(** [m.set(k, v)]: an existing key keeps its position, a new key goes last. *)
Fixpoint map_set {V} (k : string) (v : V) (m : JsMap V) : JsMap V :=
  match m with
  | [] => [(k, v)]
  | (k', v') :: m' =>
      if decide (k' = k) then (k, v) :: m' else (k', v') :: map_set k v m'
  end.

(** [Set<string>]: elements in insertion order, no duplicates. *)
Abbreviation JsSet := (list string) (only parsing).

Definition set_has (x : string) (s : JsSet) : bool := bool_decide (x ∈ s).

Definition set_add (x : string) (s : JsSet) : JsSet :=
  if set_has x s then s else s ++ [x].

Definition set_delete (x : string) (s : JsSet) : JsSet :=
  filter (λ y, y ≠ x) s.

(* ===================================================================== *)
(** ** Exceptions *)
(* ===================================================================== *)

(** What a [throw] carries: an [Error] object with its message, a
    [TypeError] (also an [Error]) with its message, or any other thrown
    value, kept by its [String(...)] rendering. *)
Inductive exn : Type :=
  | Error (message : string)
  | TypeError (message : string)
  | Thrown (rendering : string).

(** Raised by the runtime when a property of [undefined] is read. *)
Definition undefined_deref : exn := TypeError "undefined is not an object".

Inductive result (A : Type) : Type :=
  | Ok (a : A)
  | Throw (e : exn).
Arguments Ok {A} a.
Arguments Throw {A} e.

#[global] Instance result_bind : MBind result := λ A B k r,
  match r with
  | Ok a => k a
  | Throw e => Throw e
  end.

(** A [for ... of] loop whose body may throw. *)
Fixpoint foldM {A B} (f : B → A → result B) (l : list A) (b : B) : result B :=
  match l with
  | [] => Ok b
  | a :: l' => b' ← f b a ; foldM f l' b'
  end.

(* ===================================================================== *)
(** ** swarm/dag.ts *)
(* ===================================================================== *)

(** Modelled from the spec: the declaration of [SwarmAgent] and
    [SwarmDefinition] ([swarm/schema.ts]) is not among the sources; the
    fields are the ones [dag.ts] and [executor.ts] read. *)
Record SwarmAgent : Type := {
  agent_name : string;
  agent_role : string;
  agent_task : string;
  agent_extraContext : option string;
  waitsFor : list string;
  reportsTo : list string;
}.

Record SwarmDefinition : Type := {
  def_name : string;
  def_mode : string;
  def_targetCount : Z;
  def_agents : JsMap SwarmAgent;
  def_agentOrder : list string;
}.

(** [Map<string, Set<string>>]: agent name to the names it depends on. *)
Abbreviation Graph := (list (string * list string)) (only parsing).

(** [deps.get(node)!.add(dep)]: throws when [node] is not a key. *)
Definition add_dep (node dep : string) (deps : Graph) : result Graph :=
  match map_get node deps with
  | Some s => Ok (map_set node (set_add dep s) deps)
  | None => Throw undefined_deref
  end.

(** First loop: every agent starts with an empty set. *)
Definition init_deps (names : list string) : Graph :=
  foldl (λ deps name, map_set name [] deps) [] names.

(** Second loop: explicit [waits_for]. *)
Definition add_waits (deps : Graph) (entry : string * SwarmAgent) : result Graph :=
  foldM (λ deps dep, if map_has dep deps then add_dep entry.1 dep deps else Ok deps)
        (waitsFor entry.2) deps.

(** Third loop: [reports_to], inverted. *)
Definition add_reports (deps : Graph) (entry : string * SwarmAgent) : result Graph :=
  foldM (λ deps target, if map_has target deps then add_dep target entry.1 deps else Ok deps)
        (reportsTo entry.2) deps.

Definition hasExplicitDeps (deps : Graph) : bool :=
  existsb (λ entry, bool_decide (0 < length entry.2)) deps.

(** Body of the chaining loop at index [i]. *)
Definition chain_step (order : list string) (deps : Graph) (i : nat) : result Graph :=
  match order !! i, order !! (i - 1) with
  | Some cur, Some prev => add_dep cur prev deps
  | _, _ => Throw undefined_deref
  end.

(** [for (let i = 1; i < order.length; i++)]. *)
Definition chain (order : list string) (deps : Graph) : result Graph :=
  foldM (chain_step order) (seq 1 (length order - 1)) deps.

Definition chained_mode (mode : string) : bool :=
  bool_decide (mode = "pipeline") || bool_decide (mode = "sequential").

(** The graph after the explicit and the inverse edges, before chaining. *)
Definition declared_graph (def : SwarmDefinition) : result Graph :=
  deps ← foldM add_waits (def_agents def) (init_deps (map_keys (def_agents def))) ;
  foldM add_reports (def_agents def) deps.

Definition buildDependencyGraph (def : SwarmDefinition) : result Graph :=
  deps ← declared_graph def ;
  if chained_mode (def_mode def) && negb (hasExplicitDeps deps)
  then chain (def_agentOrder def) deps
  else Ok deps.

(** *** detectCycles *)

(** [const list = forward.get(dep) ?? []; list.push(node); forward.set(dep, list)]. *)
Definition push_forward (node : string) (forward : JsMap (list string)) (dep : string)
    : JsMap (list string) :=
  map_set dep (default [] (map_get dep forward) ++ [node]) forward.

(** Body of the first loop, for one entry [[node, nodeDeps]] of [deps]. *)
Definition index_entry (acc : JsMap Z * JsMap (list string)) (entry : string * list string)
    : JsMap Z * JsMap (list string) :=
  (map_set entry.1 (Z.of_nat (length entry.2)) acc.1,
   foldl (push_forward entry.1) acc.2 entry.2).

(** The pair [(inDegree, forward)] after the first loop. *)
Definition index_graph (deps : Graph) : JsMap Z * JsMap (list string) :=
  foldl index_entry ([], []) deps.

(** Second loop: the nodes of in-degree zero, in [inDegree]'s order. *)
Definition initial_queue (inDegree : JsMap Z) : list string :=
  (filter (λ entry, entry.2 = 0%Z) inDegree).*1.

(** Body of the inner loop of the [while], on the pair [(inDegree, queue)].
    [inDegree.get(dependent)!] is [undefined] only for a name that is not a
    key; the decrement is then [NaN], which never equals zero, so nothing is
    pushed, and the entry it stores is never read as a number again. *)
Definition relax (st : JsMap Z * list string) (dependent : string) : JsMap Z * list string :=
  match map_get dependent st.1 with
  | Some degree =>
      let newDegree := (degree - 1)%Z in
      (map_set dependent newDegree st.1,
       if decide (newDegree = 0%Z) then st.2 ++ [dependent] else st.2)
  | None => st
  end.

(** The [while (queue.length > 0)] loop; [None] when the fuel runs out. *)
Fixpoint kahn_loop (fuel : nat) (forward : JsMap (list string))
    (inDegree : JsMap Z) (queue sorted : list string) : option (list string) :=
  match queue with
  | [] => Some sorted
  | node :: queue' =>
      match fuel with
      | 0 => None
      | S fuel' =>
          let st := foldl relax (inDegree, queue') (default [] (map_get node forward)) in
          kahn_loop fuel' forward st.1 st.2 (sorted ++ [node])
      end
  end.

(** The sorted list the [while] loop ends with. *)
Definition kahn_sorted (deps : Graph) : option (list string) :=
  let idx := index_graph deps in
  kahn_loop (S (length deps)) idx.2 idx.1 (initial_queue idx.1) [].

(** The inner [option] is the [string[] | null] of the source. *)
Definition detectCycles (deps : Graph) : option (option (list string)) :=
  sorted ← kahn_sorted deps;
  Some (if decide (length sorted < length deps)
        then Some (filter (λ k, k ∉ sorted) (map_keys deps))
        else None).

(** *** buildExecutionWaves *)

(** [new Set(iterable)]. *)
Definition set_of_list (l : list string) : JsSet :=
  foldl (λ s x, set_add x s) [] l.

(** The inner loop over [nodeDeps], with its [break]. *)
Definition is_ready (deps : Graph) (completed : JsSet) (node : string) : result bool :=
  match map_get node deps with
  | Some nodeDeps => Ok (forallb (λ dep, set_has dep completed) nodeDeps)
  | None => Throw undefined_deref
  end.

(** Body of [for (const node of remaining)]. *)
Definition collect_ready (deps : Graph) (completed : JsSet)
    (wave : list string) (node : string) : result (list string) :=
  ready ← is_ready deps completed node;
  Ok (if ready : bool then wave ++ [node] else wave).

(** One pass over [remaining]: the wave, before sorting. *)
Definition scan (deps : Graph) (completed remaining : JsSet) : result (list string) :=
  foldM (collect_ready deps completed) remaining [].

Definition string_le (s1 s2 : string) : Prop := String.leb s1 s2 = true.

#[global] Instance string_le_dec : RelDecision string_le.
Proof. intros s1 s2. unfold string_le. apply _. Defined.

(** [wave.sort()]: the default comparison orders strings by their UTF-16
    code units; the strings of the model are ordered by their bytes, which
    is the same order on ASCII names. The names of a wave are distinct, so
    the sorted wave does not depend on the sorting algorithm. *)
Definition sort_wave (wave : list string) : list string := merge_sort string_le wave.

Definition deadlock_message (remaining : JsSet) : string :=
  "Deadlock: agents [" +:+ String.concat ", " remaining
  +:+ "] cannot make progress. This indicates a bug in cycle detection.".

Record sched : Type := {
  waves : list (list string);
  completed : JsSet;
  remaining : JsSet;
}.

(** [for (const node of wave) { remaining.delete(node); completed.add(node); }]
    followed by [waves.push(wave)]. *)
Definition settle (st : sched) (wave : list string) : sched :=
  {| waves := waves st ++ [wave];
     completed := foldl (λ s node, set_add node s) (completed st) wave;
     remaining := foldl (λ s node, set_delete node s) (remaining st) wave |}.

(** The [while (remaining.size > 0)] loop; [None] when the fuel runs out. *)
Fixpoint waves_loop (fuel : nat) (deps : Graph) (st : sched)
    : option (result (list (list string))) :=
  match remaining st with
  | [] => Some (Ok (waves st))
  | _ :: _ =>
      match fuel with
      | 0 => None
      | S fuel' =>
          match scan deps (completed st) (remaining st) with
          | Throw e => Some (Throw e)
          | Ok [] => Some (Throw (Error (deadlock_message (remaining st))))
          | Ok wave => waves_loop fuel' deps (settle st (sort_wave wave))
          end
      end
  end.

Definition initial_sched (deps : Graph) : sched :=
  {| waves := []; completed := []; remaining := set_of_list (map_keys deps) |}.

Definition buildExecutionWaves (deps : Graph) : option (result (list (list string))) :=
  waves_loop (length deps) deps (initial_sched deps).

(* ===================================================================== *)
(** ** swarm/state.ts *)
(* ===================================================================== *)

Inductive PipelineStatus : Type :=
  | pipeline_idle | pipeline_running | pipeline_completed
  | pipeline_failed | pipeline_aborted.

Inductive AgentStatus : Type :=
  | agent_pending | agent_waiting | agent_running
  | agent_completed | agent_failed.

(** An optional field ([startedAt?], [completedAt?], [error?]) that is
    absent or [undefined] is [None]. Numbers are integers. *)
Record AgentState : Type := {
  as_name : string;
  as_status : AgentStatus;
  as_iteration : Z;
  as_wave : Z;
  as_startedAt : option Z;
  as_completedAt : option Z;
  as_error : option string;
}.

(** The names for which every object inherits a property from
    [Object.prototype]. *)
Definition object_prototype_keys : list string :=
  ["__proto__"; "constructor"; "hasOwnProperty"; "isPrototypeOf";
   "propertyIsEnumerable"; "toLocaleString"; "toString"; "valueOf";
   "__defineGetter__"; "__defineSetter__"; "__lookupGetter__"; "__lookupSetter__"].

(** [agents: Record<string, AgentState>] is an object used as a map.
    [ss_agents] holds what [agents[name]] is for the names that were
    assigned. An assignment to the name [__proto__] of an object that has
    no property of its own under that name runs the accessor the object
    inherits: it adds no property and makes the value the prototype of
    the object, which [agents["__proto__"]] then reads back but which is
    no property of the object. [ss_agents_proto] says that the entry of
    [ss_agents] under [__proto__] is the prototype in this way. What a
    read of [agents[name]] finds further up the prototype chain, for a
    name that was never assigned, is not modelled: see [updateAgent]. *)
Record SwarmState : Type := {
  ss_name : string;
  ss_status : PipelineStatus;
  ss_mode : string;
  ss_iteration : Z;
  ss_targetCount : Z;
  ss_agents : gmap string AgentState;
  ss_agents_proto : bool;
  ss_startedAt : Z;
  ss_completedAt : option Z;
}.

(** The properties of the [agents] object that are its own. *)
Definition own_agents (s : SwarmState) : gmap string AgentState :=
  if ss_agents_proto s then delete "__proto__" (ss_agents s) else ss_agents s.

(** [Partial<AgentState>]: [None] is a key that is not in the update. For
    an optional field, [Some None] is a key that is there with the value
    [undefined], which [Object.assign] copies like any other value. *)
Record AgentUpdate : Type := {
  u_name : option string;
  u_status : option AgentStatus;
  u_iteration : option Z;
  u_wave : option Z;
  u_startedAt : option (option Z);
  u_completedAt : option (option Z);
  u_error : option (option string);
}.

(** [Object.assign(agent, update)]. *)
Definition assign_agent (agent : AgentState) (update : AgentUpdate) : AgentState :=
  {| as_name := default (as_name agent) (u_name update);
     as_status := default (as_status agent) (u_status update);
     as_iteration := default (as_iteration agent) (u_iteration update);
     as_wave := default (as_wave agent) (u_wave update);
     as_startedAt := default (as_startedAt agent) (u_startedAt update);
     as_completedAt := default (as_completedAt agent) (u_completedAt update);
     as_error := default (as_error agent) (u_error update) |}.

(** *** The JSON document of a snapshot *)

(** The value [JSON.parse] returns for a text, which is also what
    [JSON.stringify] writes: the text itself is not modelled. *)
Inductive json : Type :=
  | JNum (z : Z)
  | JStr (s : string)
  | JObj (fields : list (string * json)).

Definition pipeline_status_text (s : PipelineStatus) : string :=
  match s with
  | pipeline_idle => "idle" | pipeline_running => "running"
  | pipeline_completed => "completed" | pipeline_failed => "failed"
  | pipeline_aborted => "aborted"
  end.

Definition agent_status_text (s : AgentStatus) : string :=
  match s with
  | agent_pending => "pending" | agent_waiting => "waiting"
  | agent_running => "running" | agent_completed => "completed"
  | agent_failed => "failed"
  end.

(** A property whose value is [undefined] is left out by [JSON.stringify]. *)
Definition optional_field (key : string) (value : option json) : list (string * json) :=
  match value with
  | Some v => [(key, v)]
  | None => []
  end.

Definition agent_to_json (a : AgentState) : json :=
  JObj ([("name", JStr (as_name a));
         ("status", JStr (agent_status_text (as_status a)));
         ("iteration", JNum (as_iteration a));
         ("wave", JNum (as_wave a))]
        ++ optional_field "startedAt" (JNum <$> as_startedAt a)
        ++ optional_field "completedAt" (JNum <$> as_completedAt a)
        ++ optional_field "error" (JStr <$> as_error a)).

(** [JSON.stringify] writes the properties an object has of its own. *)
Definition state_to_json (s : SwarmState) : json :=
  JObj ([("name", JStr (ss_name s));
         ("status", JStr (pipeline_status_text (ss_status s)));
         ("mode", JStr (ss_mode s));
         ("iteration", JNum (ss_iteration s));
         ("targetCount", JNum (ss_targetCount s));
         ("agents", JObj (prod_map id agent_to_json <$> map_to_list (own_agents s)));
         ("startedAt", JNum (ss_startedAt s))]
        ++ optional_field "completedAt" (JNum <$> ss_completedAt s)).

(** Reading a parsed document through the [SwarmState] interface. Every
    member of a parsed object is a property of its own, also one named
    [__proto__]. *)
Definition json_field (key : string) (j : json) : option json :=
  match j with
  | JObj fields => map_get key fields
  | _ => None
  end.

Definition json_num (j : json) : option Z :=
  match j with JNum z => Some z | _ => None end.

Definition json_str (j : json) : option string :=
  match j with JStr s => Some s | _ => None end.

Definition json_obj (j : json) : option (list (string * json)) :=
  match j with JObj fields => Some fields | _ => None end.

Definition pipeline_status_of_text (s : string) : option PipelineStatus :=
  if decide (s = "idle") then Some pipeline_idle
  else if decide (s = "running") then Some pipeline_running
  else if decide (s = "completed") then Some pipeline_completed
  else if decide (s = "failed") then Some pipeline_failed
  else if decide (s = "aborted") then Some pipeline_aborted
  else None.

Definition agent_status_of_text (s : string) : option AgentStatus :=
  if decide (s = "pending") then Some agent_pending
  else if decide (s = "waiting") then Some agent_waiting
  else if decide (s = "running") then Some agent_running
  else if decide (s = "completed") then Some agent_completed
  else if decide (s = "failed") then Some agent_failed
  else None.

(** An optional property: absent is [undefined]. *)
Definition json_optional {A} (read : json → option A) (key : string) (j : json)
    : option (option A) :=
  match json_field key j with
  | Some v => Some <$> read v
  | None => Some None
  end.

Definition agent_of_json (j : json) : option AgentState :=
  name ← json_field "name" j ≫= json_str;
  status ← (json_field "status" j ≫= json_str) ≫= agent_status_of_text;
  iteration ← json_field "iteration" j ≫= json_num;
  wave ← json_field "wave" j ≫= json_num;
  startedAt ← json_optional json_num "startedAt" j;
  completedAt ← json_optional json_num "completedAt" j;
  error ← json_optional json_str "error" j;
  Some {| as_name := name; as_status := status; as_iteration := iteration;
          as_wave := wave; as_startedAt := startedAt;
          as_completedAt := completedAt; as_error := error |}.

Definition agent_entry_of_json (entry : string * json) : option (string * AgentState) :=
  a ← agent_of_json entry.2; Some (entry.1, a).

Definition state_of_json (j : json) : option SwarmState :=
  name ← json_field "name" j ≫= json_str;
  status ← (json_field "status" j ≫= json_str) ≫= pipeline_status_of_text;
  mode ← json_field "mode" j ≫= json_str;
  iteration ← json_field "iteration" j ≫= json_num;
  targetCount ← json_field "targetCount" j ≫= json_num;
  fields ← json_field "agents" j ≫= json_obj;
  agents ← mapM agent_entry_of_json fields;
  startedAt ← json_field "startedAt" j ≫= json_num;
  completedAt ← json_optional json_num "completedAt" j;
  Some {| ss_name := name; ss_status := status; ss_mode := mode;
          ss_iteration := iteration; ss_targetCount := targetCount;
          ss_agents := list_to_map agents; ss_agents_proto := false;
          ss_startedAt := startedAt; ss_completedAt := completedAt |}.

(** *** The world outside the process *)

(** The files [#persist] writes (by path, as parsed documents), the log
    files (by path, one timestamped message per line), the directories, and
    the clock: [clock n] is what the [n]-th reading of the time returns.
    File-system calls are taken to succeed. *)
Record World : Type := {
  files : gmap string json;
  logs : gmap string (list (Z * string));
  dirs : gset string;
  clock : nat → Z;
  ticks : nat;
}.

Definition set_files (w : World) (fs : gmap string json) : World :=
  {| files := fs; logs := logs w; dirs := dirs w; clock := clock w; ticks := ticks w |}.

Definition set_logs (w : World) (ls : gmap string (list (Z * string))) : World :=
  {| files := files w; logs := ls; dirs := dirs w; clock := clock w; ticks := ticks w |}.

(** [fs.mkdir(dir, { recursive: true })]. *)
Definition mkdir (dir : string) (w : World) : World :=
  {| files := files w; logs := logs w; dirs := {[dir]} ∪ dirs w;
     clock := clock w; ticks := ticks w |}.

(** [Date.now()], and the time of a [new Date()]. *)
Definition date_now (w : World) : Z * World :=
  (clock w (ticks w),
   {| files := files w; logs := logs w; dirs := dirs w;
      clock := clock w; ticks := S (ticks w) |}).

(** [path.join]; the segments are taken to be already normal. *)
Definition path_join (segments : list string) : string := String.concat "/" segments.

(** *** StateTracker *)

Record StateTracker : Type := {
  swarmDir : string;
  state : SwarmState;
}.

Definition set_state (t : StateTracker) (s : SwarmState) : StateTracker :=
  {| swarmDir := swarmDir t; state := s |}.

Definition set_agents (s : SwarmState) (agents : gmap string AgentState) : SwarmState :=
  {| ss_name := ss_name s; ss_status := ss_status s; ss_mode := ss_mode s;
     ss_iteration := ss_iteration s; ss_targetCount := ss_targetCount s;
     ss_agents := agents; ss_agents_proto := ss_agents_proto s;
     ss_startedAt := ss_startedAt s; ss_completedAt := ss_completedAt s |}.

(** [new StateTracker(workspaceDir, name)]. *)
Definition new_StateTracker (workspaceDir name : string) (w : World) : StateTracker * World :=
  let (now, w) := date_now w in
  ({| swarmDir := path_join [workspaceDir; ".swarm_" +:+ name];
      state := {| ss_name := name; ss_status := pipeline_idle; ss_mode := "sequential";
                  ss_iteration := 0; ss_targetCount := 1; ss_agents := ∅;
                  ss_agents_proto := false;
                  ss_startedAt := now; ss_completedAt := None |} |}, w).

Definition statePath (t : StateTracker) : string :=
  path_join [swarmDir t; "state"; "pipeline.json"].

(** [#persist()]. *)
Definition persist (t : StateTracker) (w : World) : World :=
  set_files w (<[statePath t := state_to_json (state t)]> (files w)).

Definition seed_agent (name : string) : AgentState :=
  {| as_name := name; as_status := agent_pending; as_iteration := 0; as_wave := 0;
     as_startedAt := None; as_completedAt := None; as_error := None |}.

(** [this.#state.agents[name] = value]. For the name [__proto__] the
    value becomes the prototype, unless the object has a property of its
    own under that name, which is then set like any other. *)
Definition assign_entry (name : string) (value : AgentState) (s : SwarmState) : SwarmState :=
  {| ss_name := ss_name s; ss_status := ss_status s; ss_mode := ss_mode s;
     ss_iteration := ss_iteration s; ss_targetCount := ss_targetCount s;
     ss_agents := <[name := value]> (ss_agents s);
     ss_agents_proto :=
       ss_agents_proto s
       || bool_decide (name = "__proto__" ∧ ss_agents s !! name = None);
     ss_startedAt := ss_startedAt s; ss_completedAt := ss_completedAt s |}.

Definition init (agentNames : list string) (targetCount : Z) (mode : string)
    (t : StateTracker) (w : World) : StateTracker * World :=
  let w := mkdir (path_join [swarmDir t; "state"]) w in
  let w := mkdir (path_join [swarmDir t; "logs"]) w in
  let w := mkdir (path_join [swarmDir t; "context"]) w in
  let (now, w) := date_now w in
  let s := state t in
  let s :=
    {| ss_name := ss_name s; ss_status := pipeline_running; ss_mode := mode;
       ss_iteration := ss_iteration s; ss_targetCount := targetCount;
       ss_agents := ss_agents s; ss_agents_proto := ss_agents_proto s;
       ss_startedAt := now; ss_completedAt := ss_completedAt s |} in
  let t := set_state t
    (foldl (λ s name, assign_entry name (seed_agent name) s) s agentNames) in
  (t, persist t w).

(** [updateAgent]. The guard [if (!agent) return] is modelled for the
    names that were assigned and for the names nothing is found for. For
    a name that was not assigned and that the object inherits a property
    for (one of [object_prototype_keys], or a field of an agent that is
    the prototype) the read finds a value that is no agent state, and
    what the source does with it is outside this model. *)
Definition updateAgent (name : string) (update : AgentUpdate)
    (t : StateTracker) (w : World) : StateTracker * World :=
  match ss_agents (state t) !! name with
  | None => (t, w)
  | Some agent =>
      let t := set_state t
        (set_agents (state t) (<[name := assign_agent agent update]> (ss_agents (state t)))) in
      (t, persist t w)
  end.

(** [Partial<SwarmState>], as [AgentUpdate] above. *)
Record PipelineUpdate : Type := {
  p_name : option string;
  p_status : option PipelineStatus;
  p_mode : option string;
  p_iteration : option Z;
  p_targetCount : option Z;
  p_agents : option (gmap string AgentState);
  p_startedAt : option Z;
  p_completedAt : option (option Z);
}.

(** [Object.assign(this.#state, update)]. An [agents] object that comes
    with the update is given by the properties it has of its own. *)
Definition assign_state (s : SwarmState) (update : PipelineUpdate) : SwarmState :=
  {| ss_name := default (ss_name s) (p_name update);
     ss_status := default (ss_status s) (p_status update);
     ss_mode := default (ss_mode s) (p_mode update);
     ss_iteration := default (ss_iteration s) (p_iteration update);
     ss_targetCount := default (ss_targetCount s) (p_targetCount update);
     ss_agents := default (ss_agents s) (p_agents update);
     ss_agents_proto :=
       match p_agents update with Some _ => false | None => ss_agents_proto s end;
     ss_startedAt := default (ss_startedAt s) (p_startedAt update);
     ss_completedAt := default (ss_completedAt s) (p_completedAt update) |}.

Definition updatePipeline (update : PipelineUpdate)
    (t : StateTracker) (w : World) : StateTracker * World :=
  let t := set_state t (assign_state (state t) update) in
  (t, persist t w).

Definition append_line (logPath message : string) (w : World) : World :=
  let (timestamp, w) := date_now w in
  set_logs w (<[logPath := default [] (logs w !! logPath) ++ [(timestamp, message)]]> (logs w)).

Definition appendLog (agentName message : string) (t : StateTracker) (w : World) : World :=
  append_line (path_join [swarmDir t; "logs"; agentName +:+ ".log"]) message w.

Definition appendOrchestratorLog (message : string) (t : StateTracker) (w : World) : World :=
  append_line (path_join [swarmDir t; "logs"; "orchestrator.log"]) message w.

(** [load()]: [null] when the file is absent. The cast of the parsed
    document to [SwarmState] is unchecked in the source; a document that
    does not have the shape of a [SwarmState] is treated here as
    unreadable. *)
Definition load (t : StateTracker) (w : World) : option SwarmState * StateTracker :=
  match files w !! statePath t ≫= state_of_json with
  | Some s => (Some s, set_state t s)
  | None => (None, t)
  end.

(* ===================================================================== *)
(** ** swarm/executor.ts *)
(* ===================================================================== *)

(** Modelled from the spec: [SingleResult] and [AgentDefinition]
    ([task/types]) and [runSubprocess] ([task/executor]) belong to another
    package; of a result only the exit code and the error text are read. *)
Record SingleResult : Type := {
  exitCode : Z;
  error : option string;
  output : string;
}.

Record AgentDefinition : Type := {
  ad_name : string;
  ad_description : string;
  ad_systemPrompt : string;
  ad_source : string;
}.

(** What [runSubprocess] is called with; the signal, the progress callback
    and the credential, model and settings handles are passed through. *)
Record SubprocessArgs : Type := {
  sp_cwd : string;
  sp_agent : AgentDefinition;
  sp_task : string;
  sp_index : Z;
  sp_id : string;
  sp_modelOverride : option string;
  sp_enableLsp : bool;
  sp_artifactsDir : string;
}.

Record SwarmExecutorOptions : Type := {
  opt_workspace : string;
  opt_swarmName : string;
  opt_iteration : Z;
  opt_modelOverride : option string;
}.

Definition buildSystemPrompt (agent : SwarmAgent) : string :=
  let parts := ["You are a " +:+ agent_role agent +:+ "."] in
  let parts :=
    match agent_extraContext agent with
    | Some extra => if decide (extra = EmptyString) then parts else parts ++ [extra]
    | None => parts
    end in
  String.concat (String (Ascii.ascii_of_nat 10) (String (Ascii.ascii_of_nat 10) EmptyString)) parts.

(** [err instanceof Error ? err.message : String(err)]. *)
Definition exn_text (e : exn) : string :=
  match e with
  | Error message => message
  | TypeError message => message
  | Thrown rendering => rendering
  end.

(** The suffix of the completion line, there when [result.error] is
    truthy: a string is truthy when it is there and not empty. *)
Definition error_suffix (error : option string) : string :=
  match error with
  | Some text => if decide (text = EmptyString) then EmptyString else ": " +:+ text
  | None => EmptyString
  end.

Section executor.
(** The external executor: it returns a result or throws, and may change
    the world; it has no access to the tracker's private state. *)
Variable runSubprocess : SubprocessArgs → World → result SingleResult * World.

Definition executeSwarmAgent (agent : SwarmAgent) (index : Z)
    (options : SwarmExecutorOptions) (stateTracker : StateTracker) (w : World)
    : result SingleResult * StateTracker * World :=
  let iteration := opt_iteration options in
  let agentId :=
    "swarm-" +:+ opt_swarmName options +:+ "-" +:+ agent_name agent
    +:+ "-" +:+ pretty iteration in
  let agentDef :=
    {| ad_name := agent_name agent;
       ad_description := "Swarm agent: " +:+ agent_role agent;
       ad_systemPrompt := buildSystemPrompt agent;
       ad_source := "project" |} in
  let (now, w) := date_now w in
  let '(t, w) := updateAgent (agent_name agent)
    {| u_name := None; u_status := Some agent_running; u_iteration := Some iteration;
       u_wave := None; u_startedAt := Some (Some now); u_completedAt := None;
       u_error := None |} stateTracker w in
  let w := appendLog (agent_name agent) ("Starting iteration " +:+ pretty iteration) t w in
  let (outcome, w) := runSubprocess
    {| sp_cwd := opt_workspace options; sp_agent := agentDef;
       sp_task := agent_task agent; sp_index := index; sp_id := agentId;
       sp_modelOverride := opt_modelOverride options; sp_enableLsp := false;
       sp_artifactsDir := path_join [swarmDir t; "context"] |} w in
  match outcome with
  | Ok result =>
      let status := if decide (exitCode result = 0%Z) then agent_completed else agent_failed in
      let (now, w) := date_now w in
      let '(t, w) := updateAgent (agent_name agent)
        {| u_name := None; u_status := Some status; u_iteration := None; u_wave := None;
           u_startedAt := None; u_completedAt := Some (Some now);
           u_error := Some (error result) |} t w in
      let w := appendLog (agent_name agent)
        ("Iteration " +:+ pretty iteration +:+ " " +:+ agent_status_text status
         +:+ error_suffix (error result)) t w in
      (Ok result, t, w)
  | Throw err =>
      let error := exn_text err in
      let (now, w) := date_now w in
      let '(t, w) := updateAgent (agent_name agent)
        {| u_name := None; u_status := Some agent_failed; u_iteration := None;
           u_wave := None; u_startedAt := None; u_completedAt := Some (Some now);
           u_error := Some (Some error) |} t w in
      let w := appendLog (agent_name agent)
        ("Iteration " +:+ pretty iteration +:+ " error: " +:+ error) t w in
      (Throw err, t, w)
  end.
End executor.

(* ===================================================================== *)
(** ** Notions for the specification of the graph functions *)
(* ===================================================================== *)

(** [edge g n d]: [d] is in the dependency set of the key [n]. *)
Definition edge (g : Graph) (n d : string) : Prop :=
  ∃ s, map_get n g = Some s ∧ d ∈ s.

Definition acyclic (g : Graph) : Prop := ∀ n, ¬ tc (edge g) n n.

(** What the types say of a [Map<string, Set<string>>]: a [Map] has each
    key once and a [Set] each element once. *)
Definition valid_graph (g : Graph) : Prop :=
  NoDup (map_keys g) ∧ Forall (λ entry, NoDup entry.2) g.

#[global] Instance valid_graph_dec g : Decision (valid_graph g).
Proof. unfold valid_graph. apply _. Defined.

(** The dependency sets hold agent names of the graph. *)
Definition closed_graph (g : Graph) : Prop :=
  Forall (λ entry, Forall (λ d, d ∈ map_keys g) entry.2) g.

#[global] Instance closed_graph_dec g : Decision (closed_graph g).
Proof. unfold closed_graph. apply _. Defined.

(** The data invariant of a dependency graph: a mapping from each agent
    name to the set of agent names it depends on. *)
Definition wf_graph (g : Graph) : Prop := valid_graph g ∧ closed_graph g.

#[global] Instance wf_graph_dec g : Decision (wf_graph g).
Proof. unfold wf_graph. apply _. Defined.

(** Modelled from the spec: the invariant of a [SwarmDefinition], whose
    declaration and parser ([swarm/schema.ts]) are not among the sources.
    The builder's input is the agent definitions plus their declared
    order: [agentOrder] lists the keys of [agents], which as keys of a
    [Map] are distinct, in declaration order. *)
Definition wf_def (d : SwarmDefinition) : Prop :=
  NoDup (map_keys (def_agents d)) ∧ def_agentOrder d = map_keys (def_agents d).

#[global] Instance wf_def_dec d : Decision (wf_def d).
Proof. unfold wf_def. apply _. Defined.

(** The edges the definition declares: [n] waits for [m], or [m] reports
    to [n], both being agents of the definition. *)
Definition declared_edge (d : SwarmDefinition) (n m : string) : Prop :=
  n ∈ map_keys (def_agents d) ∧ m ∈ map_keys (def_agents d)
  ∧ ((∃ a, (n, a) ∈ def_agents d ∧ m ∈ waitsFor a)
     ∨ (∃ a, (m, a) ∈ def_agents d ∧ n ∈ reportsTo a)).

(** The edges of the implicit chain: each agent depends on the one
    declared just before it. *)
Definition chain_edge (d : SwarmDefinition) (n m : string) : Prop :=
  ∃ i, def_agentOrder d !! S i = Some n ∧ def_agentOrder d !! i = Some m.

(** The gate of the chaining fallback, in the spec's words: the mode is
    [pipeline] or [sequential] and no edge is declared anywhere. *)
Definition chain_applies (d : SwarmDefinition) : Prop :=
  (def_mode d = "pipeline" ∨ def_mode d = "sequential")
  ∧ ∀ n m, ¬ declared_edge d n m.

#[global] Instance edge_dec g : RelDecision (edge g).
Proof.
  intros n d. unfold edge. destruct (map_get n g) as [s|].
  - destruct (decide (d ∈ s)) as [Hin|Hout].
    + left. exists s. done.
    + right. intros (s' & [= <-] & Hin). done.
  - right. intros (s' & [=] & _).
Defined.

(** Kahn's algorithm, in the spec's words: a node is removed once its
    in-degree is zero, that is once all its dependencies are removed. *)
Inductive kahn_removed (g : Graph) : string → Prop :=
  | kahn_remove n s :
      map_get n g = Some s →
      (∀ d, d ∈ s → kahn_removed g d) →
      kahn_removed g n.

(** [sorted] lists every node after all its dependencies. *)
Definition topological (g : Graph) (sorted : list string) : Prop :=
  ∀ i n d, sorted !! i = Some n → edge g n d →
    ∃ j, j < i ∧ sorted !! j = Some d.

(** The entry of [inDegree] for an entry of the graph. *)
Definition degree_entry (entry : string * list string) : string * Z :=
  (entry.1, Z.of_nat (length entry.2)).

(** The nodes that depend on [node], in the order of the graph. *)
Definition dependents (g : Graph) (node : string) : list string :=
  (filter (λ entry, node ∈ entry.2) g).*1.

(** The dependencies of a node that are not in [sorted] yet. *)
Definition waiting_on (sorted s : list string) : list string :=
  filter (λ d, d ∉ sorted) s.

(** What holds of [inDegree], [queue] and [sorted] each time the [while]
    loop of [detectCycles] tests its condition. *)
Record kahn_inv (g : Graph) (inDeg : JsMap Z) (queue sorted : list string) : Prop := {
  ki_keys : map_keys inDeg = map_keys g;
  ki_nodup : NoDup (sorted ++ queue);
  ki_known : ∀ n, n ∈ sorted ++ queue → n ∈ map_keys g;
  ki_degree : ∀ n s, map_get n g = Some s →
    map_get n inDeg = Some (Z.of_nat (length (waiting_on sorted s)));
  ki_zero : ∀ n s, map_get n g = Some s →
    (n ∈ sorted ++ queue ↔ waiting_on sorted s = []);
  ki_topo : topological g sorted;
}.

(** Every [Set] of the graph holds each element once. *)
Definition sets_nodup (g : Graph) : Prop :=
  ∀ n s, map_get n g = Some s → NoDup s.

(** [g'] has the keys of [g] and the edges of [g] plus those of [E]. *)
Definition grows (E : string → string → Prop) (g g' : Graph) : Prop :=
  map_keys g' = map_keys g
  ∧ (sets_nodup g → sets_nodup g')
  ∧ ∀ n m, edge g' n m ↔ edge g n m ∨ E n m.

(** *** Notions for the wave scheduler *)

(** A node is ready when all its dependencies are completed. *)
Definition ready (g : Graph) (completed : list string) (node : string) : Prop :=
  ∀ d, edge g node d → d ∈ completed.

Definition readyb (g : Graph) (completed : list string) (node : string) : bool :=
  forallb (λ dep, set_has dep completed) (default [] (map_get node g)).

(** The states in which the [while] loop of [buildExecutionWaves] tests
    its condition: the initial one, and the one after each pass that
    scheduled a wave. *)
Inductive reachable (g : Graph) : sched → Prop :=
  | reach_initial : reachable g (initial_sched g)
  | reach_pass st wave :
      reachable g st →
      remaining st ≠ [] →
      scan g (completed st) (remaining st) = Ok wave →
      wave ≠ [] →
      reachable g (settle st (sort_wave wave)).

(** What holds of [waves], [completed] and [remaining] in these states. *)
Record sched_inv (g : Graph) (st : sched) : Prop := {
  si_completed : completed st = concat (waves st);
  si_nodup_completed : NoDup (completed st);
  si_nodup_remaining : NoDup (remaining st);
  si_cover : ∀ n, n ∈ map_keys g ↔ n ∈ completed st ∨ n ∈ remaining st;
  si_disjoint : ∀ n, n ∈ completed st → n ∉ remaining st;
  si_nonempty : Forall (λ w, w ≠ []) (waves st);
  si_order : ∀ k w n d,
    waves st !! k = Some w → n ∈ w → edge g n d →
    ∃ j w', j < k ∧ waves st !! j = Some w' ∧ d ∈ w';
}.

(** Acyclicity, decided by the order the cycle detector computes. *)
Definition acyclicb (g : Graph) : bool :=
  match kahn_sorted g with
  | Some sorted => bool_decide (length g ≤ length sorted)
  | None => false
  end.

(* ===================================================================== *)
(** ** Scenarios and concrete inputs *)
(* ===================================================================== *)

(** What a reader of the persisted document gets of a state: the agents
    that are properties of the [agents] object, in an object whose
    prototype is the usual one. *)
Definition snapshot (s : SwarmState) : SwarmState :=
  {| ss_name := ss_name s; ss_status := ss_status s; ss_mode := ss_mode s;
     ss_iteration := ss_iteration s; ss_targetCount := ss_targetCount s;
     ss_agents := own_agents s; ss_agents_proto := false;
     ss_startedAt := ss_startedAt s; ss_completedAt := ss_completedAt s |}.

(** The update that moves an agent to [failed] with an error text. *)
Definition failed_update (err : string) : AgentUpdate :=
  {| u_name := None; u_status := Some agent_failed; u_iteration := None;
     u_wave := None; u_startedAt := None; u_completedAt := None;
     u_error := Some (Some err) |}.


Definition empty_world : World :=
  {| files := ∅; logs := ∅; dirs := ∅; clock := λ n, Z.of_nat n; ticks := 0 |}.

(** Concrete definitions and graphs. *)
Definition mk_agent (name : string) (waits reports : list string) : SwarmAgent :=
  {| agent_name := name; agent_role := "worker"; agent_task := "work";
     agent_extraContext := None; waitsFor := waits; reportsTo := reports |}.

Definition mk_def (mode : string) (l : list SwarmAgent) : SwarmDefinition :=
  {| def_name := "swarm"; def_mode := mode; def_targetCount := 1;
     def_agents := foldl (λ m a, map_set (agent_name a) a m) [] l;
     def_agentOrder := agent_name <$> l |}.

Definition abc_def : SwarmDefinition :=
  mk_def "parallel" [mk_agent "A" [] []; mk_agent "B" ["A"] []; mk_agent "C" ["B"] []].

Definition xy_def : SwarmDefinition :=
  mk_def "parallel" [mk_agent "X" [] ["Y"]; mk_agent "Y" [] []].

Definition pqr_def : SwarmDefinition :=
  mk_def "sequential" [mk_agent "P" [] []; mk_agent "Q" [] []; mk_agent "R" [] []].

Definition ghost_def : SwarmDefinition :=
  mk_def "parallel" [mk_agent "A" ["ghost"] []; mk_agent "B" ["A"] []].

Definition self_def : SwarmDefinition :=
  mk_def "parallel" [mk_agent "A" ["A"] []].

Definition abc_graph : Graph := [("A", []); ("B", ["A"]); ("C", ["B"])].

Definition mn_graph : Graph := [("M", ["N"]); ("N", ["M"])].

(** A run with one tracked agent, and an executor that throws. *)
Definition throwing_executor (args : SubprocessArgs) (w : World)
    : result SingleResult * World :=
  (Throw (Error "spawn failed"), w).

Definition tracked_run : StateTracker * World :=
  let '(t, w) := new_StateTracker "/work" "run" empty_world in
  init ["a"] 1 "parallel" t w.

Definition agent_a : SwarmAgent := mk_agent "a" [] [].

Definition run_options : SwarmExecutorOptions :=
  {| opt_workspace := "/work"; opt_swarmName := "run"; opt_iteration := 1;
     opt_modelOverride := None |}.


(* ===================================================================== *)
(** ** Further notions: the levels of the scheduler *)
(* ===================================================================== *)

(** More of what holds in the states of the loop of [buildExecutionWaves]:
    [remaining] is what is left of the keys, every wave is sorted, and
    wave [k] holds exactly the keys outside the earlier waves whose
    dependencies are all in the earlier waves. *)
Record sched_level (g : Graph) (st : sched) : Prop := {
  sl_remaining :
    remaining st = filter (λ k, k ∉ completed st) (set_of_list (map_keys g));
  sl_sorted : Forall (Sorted string_le) (waves st);
  sl_level : ∀ k w, waves st !! k = Some w →
    ∀ n, n ∈ w ↔
      n ∈ map_keys g ∧ (n ∉ concat (take k (waves st)))
      ∧ ready g (concat (take k (waves st))) n;
}.

(** The waves of a graph, as a specification: no wave is empty, every
    wave is sorted, no name occurs twice, every key occurs, and wave [k]
    holds exactly the keys outside the earlier waves whose dependencies
    are all in the earlier waves. *)
Definition level_waves (g : Graph) (ws : list (list string)) : Prop :=
  Forall (λ w, w ≠ []) ws
  ∧ Forall (Sorted string_le) ws
  ∧ NoDup (concat ws)
  ∧ (∀ n, n ∈ map_keys g → n ∈ concat ws)
  ∧ ∀ k w, ws !! k = Some w →
      ∀ n, n ∈ w ↔
        n ∈ map_keys g ∧ (n ∉ concat (take k ws))
        ∧ ready g (concat (take k ws)) n.

(* ===================================================================== *)
(** ** Further notions: the order of a sorted wave *)
(* ===================================================================== *)

(** The bytes of a name. [wave.sort()] compares strings by their UTF-16
    code units; a name all of whose characters are ASCII has one code
    unit for each of its bytes, the byte itself. *)
Definition char_codes (s : string) : list N :=
  Ascii.N_of_ascii <$> String.list_ascii_of_string s.

Definition ascii_name (s : string) : Prop :=
  Forall (λ u, (u < 128)%N) (char_codes s).

#[global] Instance ascii_name_dec s : Decision (ascii_name s).
Proof. unfold ascii_name. apply _. Defined.

(** The order of two sequences of code units: at the first place where
    they differ the smaller unit decides, and a sequence that ends there
    comes first. *)
Fixpoint units_le (l k : list N) : Prop :=
  match l, k with
  | [], _ => True
  | _ :: _, [] => False
  | x :: l, y :: k => (x < y)%N ∨ (x = y ∧ units_le l k)
  end.

(** The order of two ASCII names in JavaScript. *)
Definition name_le (a b : string) : Prop := units_le (char_codes a) (char_codes b).

(* ===================================================================== *)
(** ** Further notions: sequences of tracker calls *)
(* ===================================================================== *)

(** A call of one of the public methods of [StateTracker] that change
    the tracker or the world. *)
Inductive tracker_op : Type :=
  | op_init (agentNames : list string) (targetCount : Z) (mode : string)
  | op_updateAgent (name : string) (update : AgentUpdate)
  | op_updatePipeline (update : PipelineUpdate)
  | op_appendLog (agentName message : string)
  | op_appendOrchestratorLog (message : string).

Definition run_op (tw : StateTracker * World) (op : tracker_op) : StateTracker * World :=
  match op with
  | op_init agentNames targetCount mode => init agentNames targetCount mode tw.1 tw.2
  | op_updateAgent name update => updateAgent name update tw.1 tw.2
  | op_updatePipeline update => updatePipeline update tw.1 tw.2
  | op_appendLog agentName message => (tw.1, appendLog agentName message tw.1 tw.2)
  | op_appendOrchestratorLog message => (tw.1, appendOrchestratorLog message tw.1 tw.2)
  end.

(** The calls of a list, one after the other. *)
Definition run_ops (ops : list tracker_op) (tw : StateTracker * World)
    : StateTracker * World :=
  foldl run_op tw ops.

(** The calls for which the model of the [agents] object says what the
    source does, and after which no agent is the prototype of the object:
    an [init] that does not list [__proto__], and an [updateAgent] for a
    name that no object inherits a property for. *)
Definition plain_op (op : tracker_op) : Prop :=
  match op with
  | op_init agentNames _ _ => "__proto__" ∉ agentNames
  | op_updateAgent name _ => name ∉ object_prototype_keys
  | op_updatePipeline _ | op_appendLog _ _ | op_appendOrchestratorLog _ => True
  end.

#[global] Instance plain_op_dec op : Decision (plain_op op).
Proof. destruct op; simpl; apply _. Defined.

(** [load()] on a tracker constructed afresh for a run. *)
Definition reload (workspaceDir name : string) (w : World) : option SwarmState :=
  let '(fresh, w) := new_StateTracker workspaceDir name w in
  (load fresh w).1.

(* ===================================================================== *)
(** ** run-pipeline.ts: from the definition to the tracker *)
(* ===================================================================== *)

(** How the planning part of the script ends: [process.exit(1)] after
    the cycles are reported, the waves with the line printed for them, or
    an exception that escapes. *)
Inductive plan_outcome : Type :=
  | plan_exit (code : Z) (cycles : list string)
  | plan_waves (waves : list (list string)) (banner : string)
  | plan_throw (e : exn).

(** The line [Waves: W1:[...] -> W2:[...]]. *)
Definition waves_banner (waves : list (list string)) : string :=
  "Waves: " +:+
  String.concat " -> "
    (imap (λ i w, "W" +:+ pretty (i + 1) +:+ ":[" +:+ String.concat "," w +:+ "]") waves).

(** [Build DAG]: the builder, the detector as a guard, the scheduler. An
    array is truthy, also an empty one, so [if (cycles)] asks whether the
    detector returned a list. [None] when a loop runs out of fuel. *)
Definition plan (def : SwarmDefinition) : option plan_outcome :=
  match buildDependencyGraph def with
  | Throw e => Some (plan_throw e)
  | Ok deps =>
      cycles ← detectCycles deps;
      match cycles with
      | Some cycles => Some (plan_exit 1 cycles)
      | None =>
          waves ← buildExecutionWaves deps;
          match waves with
          | Throw e => Some (plan_throw e)
          | Ok waves => Some (plan_waves waves (waves_banner waves))
          end
      end
  end.

(** [Resolve workspace] and [Initialize], for the resolved workspace path:
    the directory is made, the tracker constructed and initialised with
    the keys of [def.agents]. *)
Definition start_tracker (def : SwarmDefinition) (workspace : string) (w : World)
    : StateTracker * World :=
  let w := mkdir workspace w in
  let '(t, w) := new_StateTracker workspace (def_name def) w in
  init (map_keys (def_agents def)) (def_targetCount def) (def_mode def) t w.

(** A graph with a cycle and an agent that waits for it. *)
Definition tail_graph : Graph :=
  [("A", ["B"]); ("B", ["A"]); ("C", ["A"]); ("D", [])].

(* ===================================================================== *)
(** ** Properties of the containers *)
(* ===================================================================== *)

Section js_map.
Context {V : Type}.
Implicit Types (m : list (string * V)) (k : string) (v : V).

Lemma map_get_Some_elem m k v : map_get k m = Some v → (k, v) ∈ m.
Proof.
  induction m as [|[k' v'] m IH]; simpl; [done|].
  case_decide; intros Hget.
  - simplify_eq. left.
  - right. auto.
Qed.

Lemma map_get_None m k : map_get k m = None ↔ k ∉ map_keys m.
Proof.
  unfold map_keys. induction m as [|[k' v'] m IH]; simpl.
  - split; [intros _; apply not_elem_of_nil | done].
  - rewrite not_elem_of_cons. case_decide; naive_solver.
Qed.

Lemma map_get_is_Some m k : is_Some (map_get k m) ↔ k ∈ map_keys m.
Proof.
  rewrite <- not_eq_None_Some, map_get_None.
  split; [apply dec_stable | auto].
Qed.

Lemma map_has_true m k : map_has k m = true ↔ k ∈ map_keys m.
Proof.
  rewrite <- map_get_is_Some. unfold map_has.
  destruct (map_get k m); split; try done; intros [? ?]; done.
Qed.

Lemma map_get_elem_NoDup m k v :
  NoDup (map_keys m) → (k, v) ∈ m → map_get k m = Some v.
Proof.
  unfold map_keys. induction m as [|[k' v'] m IH]; simpl.
  - intros _ Hin. by apply elem_of_nil in Hin.
  - rewrite NoDup_cons, elem_of_cons. intros [Hk' Hnd] [Heq|Hin].
    + simplify_eq. by rewrite decide_True.
    + rewrite decide_False; [auto|].
      intros ->. apply Hk'. apply list_elem_of_fmap. by exists (k, v).
Qed.

Lemma map_get_set_eq m k v : map_get k (map_set k v m) = Some v.
Proof.
  induction m as [|[k' v'] m IH]; simpl.
  - by rewrite decide_True.
  - case_decide; simpl; [by rewrite decide_True | by rewrite decide_False].
Qed.

Lemma map_get_set_ne m k k' v : k ≠ k' → map_get k' (map_set k v m) = map_get k' m.
Proof.
  intros Hne. induction m as [|[k0 v0] m IH]; simpl.
  - by rewrite decide_False.
  - case_decide; simpl.
    + simplify_eq. by rewrite !decide_False.
    + by rewrite IH.
Qed.

Lemma map_get_set m k k' v :
  map_get k' (map_set k v m) = if decide (k = k') then Some v else map_get k' m.
Proof.
  case_decide; [subst; apply map_get_set_eq | by apply map_get_set_ne].
Qed.

Lemma map_keys_set_known m k v : k ∈ map_keys m → map_keys (map_set k v m) = map_keys m.
Proof.
  unfold map_keys. induction m as [|[k' v'] m IH]; simpl.
  - intros Hin. by apply elem_of_nil in Hin.
  - rewrite elem_of_cons. intros Hin. case_decide; simpl; [by subst|].
    f_equal. apply IH. naive_solver.
Qed.

Lemma map_keys_set_new m k v : k ∉ map_keys m → map_keys (map_set k v m) = map_keys m ++ [k].
Proof.
  unfold map_keys. induction m as [|[k' v'] m IH]; simpl; [done|].
  rewrite not_elem_of_cons. intros [Hne Hin].
  rewrite decide_False by done. simpl. f_equal. auto.
Qed.

Lemma map_set_length_known m k v : k ∈ map_keys m → length (map_set k v m) = length m.
Proof.
  intros Hin. apply (map_keys_set_known _ _ v) in Hin.
  unfold map_keys in Hin. apply (f_equal length) in Hin.
  by rewrite !length_fmap in Hin.
Qed.
End js_map.

Lemma set_add_elem x y s : y ∈ set_add x s ↔ y = x ∨ y ∈ s.
Proof.
  unfold set_add, set_has. case_bool_decide.
  - naive_solver.
  - rewrite elem_of_app, list_elem_of_singleton. naive_solver.
Qed.

Lemma set_add_NoDup x s : NoDup s → NoDup (set_add x s).
Proof.
  unfold set_add, set_has. case_bool_decide; [done|].
  intros Hnd. apply NoDup_app. split_and!; [done| |apply NoDup_singleton].
  intros y Hy Hx. apply list_elem_of_singleton in Hx. by subst.
Qed.

Lemma set_delete_elem x y s : y ∈ set_delete x s ↔ y ≠ x ∧ y ∈ s.
Proof. unfold set_delete. by rewrite list_elem_of_filter. Qed.

Lemma set_of_list_spec l :
  NoDup (set_of_list l) ∧ ∀ x, x ∈ set_of_list l ↔ x ∈ l.
Proof.
  unfold set_of_list.
  cut (∀ s, NoDup s →
         NoDup (foldl (λ s x, set_add x s) s l)
         ∧ ∀ x, x ∈ foldl (λ s x, set_add x s) s l ↔ x ∈ s ∨ x ∈ l).
  { intros H. destruct (H [] (NoDup_nil_2)) as [Hnd Hin]. split; [done|].
    intros x. rewrite Hin. rewrite elem_of_nil. naive_solver. }
  induction l as [|a l IH]; intros s Hs; simpl.
  - split; [done|]. intros x. rewrite elem_of_nil. naive_solver.
  - destruct (IH (set_add a s) (set_add_NoDup a s Hs)) as [Hnd Hin].
    split; [done|]. intros x. rewrite Hin, set_add_elem, elem_of_cons. naive_solver.
Qed.

Lemma set_of_list_NoDup l : NoDup l → set_of_list l = l.
Proof.
  unfold set_of_list.
  cut (∀ s, NoDup (s ++ l) → foldl (λ s x, set_add x s) s l = s ++ l).
  { intros H Hnd. apply (H []). done. }
  induction l as [|a l IH]; intros s Hnd; simpl.
  - by rewrite app_nil_r.
  - assert (set_add a s = s ++ [a]) as ->.
    { unfold set_add, set_has. rewrite bool_decide_eq_false_2; [done|].
      apply NoDup_app in Hnd as (_ & Hd & _). intros Hin.
      apply (Hd a Hin). left. }
    rewrite IH; rewrite <- (assoc_L (++)); done.
Qed.

(* ===================================================================== *)
(** ** The dependency graph builder *)
(* ===================================================================== *)

Lemma foldM_app {A B} (f : B → A → result B) l1 l2 b :
  foldM f (l1 ++ l2) b = (b' ← foldM f l1 b; foldM f l2 b').
Proof.
  revert b. induction l1 as [|a l1 IH]; intros b; simpl.
  - done.
  - destruct (f b a); simpl; [apply IH | done].
Qed.

Lemma grows_refl g : grows (λ _ _, False) g g.
Proof. split_and!; [done..|]. naive_solver. Qed.

Lemma grows_trans E1 E2 g1 g2 g3 :
  grows E1 g1 g2 → grows E2 g2 g3 → grows (λ n m, E1 n m ∨ E2 n m) g1 g3.
Proof.
  intros (Hk1 & Hs1 & He1) (Hk2 & Hs2 & He2). split_and!.
  - congruence.
  - auto.
  - intros n m. rewrite He2, He1. naive_solver.
Qed.

Lemma grows_iff E1 E2 g g' :
  (∀ n m, E1 n m ↔ E2 n m) → grows E1 g g' → grows E2 g g'.
Proof.
  intros HE (Hk & Hs & He). split_and!; [done..|].
  intros n m. rewrite He, HE. done.
Qed.

Lemma add_dep_grows g node dep :
  node ∈ map_keys g →
  ∃ g', add_dep node dep g = Ok g' ∧ grows (λ n m, n = node ∧ m = dep) g g'.
Proof.
  intros Hin. unfold add_dep.
  destruct (map_get node g) as [s|] eqn:Hs.
  2:{ apply map_get_None in Hs. done. }
  eexists. split; [done|]. split_and!.
  - by apply map_keys_set_known.
  - intros Hnd n s'. rewrite map_get_set. case_decide.
    + intros [= <-]. apply set_add_NoDup. eauto.
    + apply Hnd.
  - intros n m. unfold edge. setoid_rewrite map_get_set. split.
    + intros (s' & Hget & Hm). case_decide.
      * simplify_eq. apply set_add_elem in Hm as [->|Hm]; eauto.
      * eauto.
    + intros [(s' & Hget & Hm)|[-> ->]].
      * case_decide; [|eauto]. simplify_eq.
        eexists. split; [done|]. apply set_add_elem. auto.
      * rewrite decide_True by done.
        eexists. split; [done|]. apply set_add_elem. auto.
Qed.

(** A loop whose body only adds edges adds the edges of all its rounds. *)
Lemma foldM_grows {A} (f : list (string * list string) → A → result (list (string * list string)))
    (E : A → string → string → Prop) (K : list string) (l : list A) :
  (∀ g a, a ∈ l → map_keys g = K → ∃ g', f g a = Ok g' ∧ grows (E a) g g') →
  ∀ g, map_keys g = K →
    ∃ g', foldM f l g = Ok g' ∧ grows (λ n m, ∃ a, a ∈ l ∧ E a n m) g g'.
Proof.
  induction l as [|a l IH]; intros Hf g HK; simpl.
  - eexists. split; [done|]. eapply grows_iff; [|apply grows_refl].
    intros n m. split; [done|]. intros (a & Ha & _). by apply elem_of_nil in Ha.
  - destruct (Hf g a) as (g1 & -> & Hg1); [left|done|]. simpl.
    destruct (IH (λ g a Ha, Hf g a (list_elem_of_further _ _ _ Ha)) g1) as (g2 & -> & Hg2).
    { destruct Hg1 as (-> & _). done. }
    eexists. split; [done|].
    eapply grows_iff; [|exact (grows_trans _ _ _ _ _ Hg1 Hg2)].
    intros n m. setoid_rewrite elem_of_cons. naive_solver.
Qed.

Lemma add_waits_grows g entry :
  entry.1 ∈ map_keys g →
  ∃ g', add_waits g entry = Ok g'
        ∧ grows (λ n m, n = entry.1 ∧ m ∈ waitsFor entry.2 ∧ m ∈ map_keys g) g g'.
Proof.
  intros Hin. unfold add_waits.
  edestruct (foldM_grows
    (λ deps dep, if map_has dep deps then add_dep entry.1 dep deps else Ok deps)
    (λ dep n m, n = entry.1 ∧ m = dep ∧ dep ∈ map_keys g) (map_keys g)
    (waitsFor entry.2)) as (g' & Hg' & Hgrows); [|done|].
  - intros g0 dep _ HK. destruct (map_has dep g0) eqn:Hhas.
    + apply map_has_true in Hhas. rewrite HK in Hhas.
      destruct (add_dep_grows g0 entry.1 dep) as (g1 & ? & ?); [by rewrite HK|].
      exists g1. split; [done|]. eapply grows_iff; [|done]. naive_solver.
    + exists g0. split; [done|]. eapply grows_iff; [|apply grows_refl].
      intros n m. split; [done|]. intros (_ & _ & Hdep).
      rewrite <- HK in Hdep. apply map_has_true in Hdep. congruence.
  - exists g'. split; [done|]. eapply grows_iff; [|done]. naive_solver.
Qed.

Lemma add_reports_grows g entry :
  entry.1 ∈ map_keys g →
  ∃ g', add_reports g entry = Ok g'
        ∧ grows (λ n m, m = entry.1 ∧ n ∈ reportsTo entry.2 ∧ n ∈ map_keys g) g g'.
Proof.
  intros Hin. unfold add_reports.
  edestruct (foldM_grows
    (λ deps target, if map_has target deps then add_dep target entry.1 deps else Ok deps)
    (λ target n m, m = entry.1 ∧ n = target ∧ target ∈ map_keys g) (map_keys g)
    (reportsTo entry.2)) as (g' & Hg' & Hgrows); [|done|].
  - intros g0 target _ HK. destruct (map_has target g0) eqn:Hhas.
    + apply map_has_true in Hhas.
      destruct (add_dep_grows g0 target entry.1) as (g1 & ? & ?); [done|].
      exists g1. split; [done|]. rewrite HK in Hhas.
      eapply grows_iff; [|done]. naive_solver.
    + exists g0. split; [done|]. eapply grows_iff; [|apply grows_refl].
      intros n m. split; [done|]. intros (_ & -> & Hdep).
      rewrite <- HK in Hdep. apply map_has_true in Hdep. congruence.
  - exists g'. split; [done|]. eapply grows_iff; [|done]. naive_solver.
Qed.

Lemma map_set_new {V} (m : list (string * V)) k v :
  k ∉ map_keys m → map_set k v m = m ++ [(k, v)].
Proof.
  unfold map_keys. induction m as [|[k' v'] m IH]; simpl; [done|].
  rewrite not_elem_of_cons. intros [Hne Hin].
  rewrite decide_False by done. f_equal. auto.
Qed.

Local Abbreviation blank := (λ n : string, (n, @nil string)).

Lemma blank_keys (l : list string) : map_keys (blank <$> l) = l.
Proof. unfold map_keys. induction l as [|a l IH]; simpl; [done | by f_equal]. Qed.

Lemma init_deps_NoDup names :
  NoDup names → init_deps names = blank <$> names.
Proof.
  unfold init_deps.
  cut (∀ pre, NoDup (pre ++ names) →
         foldl (λ deps name, map_set name [] deps) (blank <$> pre) names
         = blank <$> (pre ++ names)).
  { intros H Hnd. apply (H []). done. }
  induction names as [|a names IH]; intros pre Hnd; simpl.
  - by rewrite app_nil_r.
  - rewrite map_set_new.
    + replace ((blank <$> pre) ++ [(a, [])])
        with (blank <$> (pre ++ [a]))
        by (by rewrite fmap_app).
      rewrite IH; rewrite <- (assoc_L (++)); done.
    + rewrite blank_keys.
      apply NoDup_app in Hnd as (_ & Hd & _). intros Hin. apply (Hd a Hin). left.
Qed.

Lemma init_deps_keys names : NoDup names → map_keys (init_deps names) = names.
Proof.
  intros Hnd. rewrite init_deps_NoDup by done. apply blank_keys.
Qed.

Lemma init_deps_empty names n s :
  NoDup names → map_get n (init_deps names) = Some s → s = [].
Proof.
  intros Hnd Hget. apply map_get_Some_elem in Hget.
  rewrite init_deps_NoDup in Hget by done.
  apply list_elem_of_fmap in Hget as (x & [= _ ->] & _). done.
Qed.

Lemma hasExplicitDeps_true g :
  NoDup (map_keys g) → hasExplicitDeps g = true ↔ ∃ n m, edge g n m.
Proof.
  intros Hnd. unfold hasExplicitDeps. rewrite existsb_exists.
  split.
  - intros ([n s] & Hin & Hlen). simpl in Hlen. apply bool_decide_eq_true in Hlen.
    apply list_elem_of_In in Hin.
    destruct s as [|m s]; [simpl in Hlen; lia|].
    exists n, m, (m :: s). split; [by apply map_get_elem_NoDup | left].
  - intros (n & m & s & Hget & Hm). exists (n, s). split.
    + apply list_elem_of_In. by apply map_get_Some_elem.
    + simpl. apply bool_decide_eq_true.
      destruct s; [by apply elem_of_nil in Hm | simpl; lia].
Qed.

Lemma hasExplicitDeps_false g :
  NoDup (map_keys g) → hasExplicitDeps g = false ↔ ∀ n m, ¬ edge g n m.
Proof.
  intros Hnd. rewrite <- not_true_iff_false, hasExplicitDeps_true by done.
  naive_solver.
Qed.

Lemma chain_grows order g :
  (∀ n, n ∈ order → n ∈ map_keys g) →
  ∃ g', chain order g = Ok g'
        ∧ grows (λ n m, ∃ i, order !! S i = Some n ∧ order !! i = Some m) g g'.
Proof.
  intros Hsub. unfold chain.
  edestruct (foldM_grows (chain_step order)
    (λ i n m, order !! i = Some n ∧ order !! (i - 1) = Some m) (map_keys g)
    (seq 1 (length order - 1))) as (g' & Hg' & Hgrows); [|done|].
  - intros g0 i Hi HK. apply elem_of_seq in Hi. unfold chain_step.
    destruct (lookup_lt_is_Some_2 order i) as [cur Hcur]; [lia|].
    destruct (lookup_lt_is_Some_2 order (i - 1)) as [prev Hprev]; [lia|].
    rewrite Hcur, Hprev.
    destruct (add_dep_grows g0 cur prev) as (g1 & ? & ?).
    { rewrite HK. apply Hsub. by eapply list_elem_of_lookup_2. }
    exists g1. split; [done|]. eapply grows_iff; [|done].
    intros n m. split; [intros [-> ->]; done | intros [? ?]; split; congruence].
  - exists g'. split; [done|]. eapply grows_iff; [|done].
    intros n m. split.
    + intros (i & Hi & Hn & Hm). apply elem_of_seq in Hi.
      exists (i - 1). replace (S (i - 1)) with i by lia. done.
    + intros (i & Hn & Hm). exists (S i). split_and!.
      * apply elem_of_seq. apply lookup_lt_Some in Hn. lia.
      * done.
      * by replace (S i - 1) with i by lia.
Qed.

(** What [declared_graph] returns: the agents as keys, in declaration
    order, and exactly the declared edges. *)
Lemma declared_graph_spec d :
  wf_def d →
  ∃ g, declared_graph d = Ok g
       ∧ map_keys g = map_keys (def_agents d)
       ∧ sets_nodup g
       ∧ ∀ n m, edge g n m ↔ declared_edge d n m.
Proof.
  intros [Hnd Horder]. unfold declared_graph.
  set (K := map_keys (def_agents d)).
  assert (HK0 : map_keys (init_deps K) = K) by by apply init_deps_keys.
  assert (Hentry : ∀ entry : string * SwarmAgent, entry ∈ def_agents d → entry.1 ∈ K).
  { intros entry Hin. apply list_elem_of_fmap. by exists entry. }
  destruct (foldM_grows add_waits
    (λ entry n m, n = entry.1 ∧ m ∈ waitsFor entry.2 ∧ m ∈ K) K (def_agents d))
    with (g := init_deps K) as (g1 & Hg1 & Hgrows1); [|done|].
  { intros g entry Hin HK. destruct (add_waits_grows g entry) as (g' & ? & ?).
    - rewrite HK. auto.
    - exists g'. by rewrite <- HK. }
  rewrite Hg1. simpl.
  destruct (foldM_grows add_reports
    (λ entry n m, m = entry.1 ∧ n ∈ reportsTo entry.2 ∧ n ∈ K) K (def_agents d))
    with (g := g1) as (g2 & Hg2 & Hgrows2).
  { intros g entry Hin HK. destruct (add_reports_grows g entry) as (g' & ? & ?).
    - rewrite HK. auto.
    - exists g'. by rewrite <- HK. }
  { destruct Hgrows1 as (-> & _). done. }
  exists g2. split; [done|].
  destruct (grows_trans _ _ _ _ _ Hgrows1 Hgrows2) as (Hkeys & Hsets & Hedges).
  split_and!.
  - by rewrite Hkeys.
  - apply Hsets. intros n s Hget. apply init_deps_empty in Hget as ->; [constructor | done].
  - intros n m. rewrite Hedges. unfold declared_edge. fold K. split.
    + intros [(s & Hget & Hm)|[(entry & Hin & -> & Hm & HmK)|(entry & Hin & -> & Hn & HnK)]].
      * apply init_deps_empty in Hget as ->; [|done]. by apply elem_of_nil in Hm.
      * split_and!; [auto|done|]. left. exists entry.2. by destruct entry.
      * split_and!; [done|auto|]. right. exists entry.2. by destruct entry.
    + intros (HnK & HmK & [(a & Hin & Hm)|(a & Hin & Hn)]); right.
      * left. exists (n, a). done.
      * right. exists (m, a). done.
Qed.


Lemma chained_mode_true mode :
  chained_mode mode = true ↔ mode = "pipeline" ∨ mode = "sequential".
Proof.
  unfold chained_mode. rewrite orb_true_iff, !bool_decide_eq_true. done.
Qed.

(** What [buildDependencyGraph] returns: the agents as keys and the
    declared edges, or, when the fallback applies, the edges of the chain. *)
Lemma buildDependencyGraph_spec d :
  wf_def d →
  ∃ g, buildDependencyGraph d = Ok g
       ∧ map_keys g = map_keys (def_agents d)
       ∧ sets_nodup g
       ∧ ((chain_applies d ∧ ∀ n m, edge g n m ↔ chain_edge d n m)
          ∨ (¬ chain_applies d ∧ ∀ n m, edge g n m ↔ declared_edge d n m)).
Proof.
  intros Hwf. destruct (declared_graph_spec d Hwf) as (g & Hg & Hkeys & Hsets & Hedges).
  destruct Hwf as [Hnd Horder].
  unfold buildDependencyGraph. rewrite Hg. simpl.
  assert (Hgate : chained_mode (def_mode d) && negb (hasExplicitDeps g) = true
                  ↔ chain_applies d).
  { rewrite andb_true_iff, negb_true_iff, chained_mode_true.
    rewrite hasExplicitDeps_false by by rewrite Hkeys.
    unfold chain_applies. by setoid_rewrite Hedges. }
  destruct (chained_mode (def_mode d) && negb (hasExplicitDeps g)) eqn:Hb.
  - apply proj1 in Hgate. specialize (Hgate eq_refl).
    destruct (chain_grows (def_agentOrder d) g) as (g' & Hg' & Hk' & Hs' & He').
    { intros n. by rewrite Horder, Hkeys. }
    exists g'. split_and!; [done|congruence|auto|].
    left. split; [done|].
    intros n m. rewrite He', Hedges. unfold chain_edge.
    destruct Hgate as [_ Hnone]. specialize (Hnone n m). naive_solver.
  - assert (¬ chain_applies d) by (intros Happ; apply Hgate in Happ; done).
    exists g. split_and!; [done..|]. by right.
Qed.

Lemma valid_graph_sets g : valid_graph g → sets_nodup g.
Proof.
  intros [_ Hall] n s Hget. apply map_get_Some_elem in Hget.
  rewrite Forall_forall in Hall. apply (Hall _ Hget).
Qed.

Lemma closed_graph_edge g n m : closed_graph g → edge g n m → m ∈ map_keys g.
Proof.
  intros Hall (s & Hget & Hm). apply map_get_Some_elem in Hget.
  unfold closed_graph in Hall. rewrite Forall_forall in Hall.
  specialize (Hall _ Hget). rewrite Forall_forall in Hall. auto.
Qed.

Lemma closed_graph_intro g :
  NoDup (map_keys g) → (∀ n m, edge g n m → m ∈ map_keys g) → closed_graph g.
Proof.
  intros Hnd Hclosed. apply Forall_forall. intros [n s] Hin.
  apply map_get_elem_NoDup in Hin; [|done].
  apply Forall_forall. intros m Hm. apply (Hclosed n). by exists s.
Qed.

Lemma wf_graph_intro g :
  NoDup (map_keys g) → sets_nodup g →
  (∀ n m, edge g n m → m ∈ map_keys g) → wf_graph g.
Proof.
  intros Hnd Hsets Hclosed. split; [split; [done|] | by apply closed_graph_intro].
  apply Forall_forall. intros [n s] Hin. simpl.
  apply map_get_elem_NoDup in Hin; [|done]. by eapply Hsets.
Qed.

Lemma wf_graph_keys g : wf_graph g → NoDup (map_keys g).
Proof. by intros [[? _] _]. Qed.

Lemma wf_graph_closed g n m : wf_graph g → edge g n m → m ∈ map_keys g.
Proof. intros [_ Hclosed]. by apply closed_graph_edge. Qed.

Lemma edge_source g n m : edge g n m → n ∈ map_keys g.
Proof. intros (s & Hget & _). apply map_get_is_Some. eauto. Qed.

Lemma chain_edge_known d n m :
  wf_def d → chain_edge d n m →
  n ∈ map_keys (def_agents d) ∧ m ∈ map_keys (def_agents d) ∧ n ≠ m.
Proof.
  intros [Hnd Horder] (i & Hn & Hm). rewrite Horder in Hn, Hm. split_and!.
  - by eapply list_elem_of_lookup_2.
  - by eapply list_elem_of_lookup_2.
  - intros ->. assert (S i = i); [|lia]. by eapply NoDup_lookup.
Qed.

(** The builder establishes the data invariant of a dependency graph. *)
Lemma buildDependencyGraph_wf d :
  wf_def d → ∃ g, buildDependencyGraph d = Ok g ∧ wf_graph g.
Proof.
  intros Hwf.
  destruct (buildDependencyGraph_spec d Hwf) as (g & Hg & Hkeys & Hsets & Hedges).
  exists g. split; [done|]. apply wf_graph_intro; [|done|].
  - rewrite Hkeys. apply Hwf.
  - intros n m He. rewrite Hkeys. destruct Hedges as [[_ Hchain]|[_ Hdecl]].
    + apply Hchain in He. by apply chain_edge_known in He as (_ & ? & _).
    + apply Hdecl in He. by destruct He as (_ & ? & _).
Qed.

(* ===================================================================== *)
(** ** Acyclic graphs *)
(* ===================================================================== *)

(** In a finite non-empty set of nodes of an acyclic relation, some node
    has no successor in the set. *)
Lemma acyclic_sink (l : list string) :
  ∀ (R : relation string) `{!RelDecision R},
    (∀ x, ¬ tc R x x) → l ≠ [] →
    ∃ x, x ∈ l ∧ ∀ y, y ∈ l → ¬ R x y.
Proof.
  induction l as [|x l IH]; intros R HR Hacyc Hne; [done|].
  destruct l as [|y l].
  { exists x. split; [left|]. intros y Hy HR'.
    apply list_elem_of_singleton in Hy as ->. apply (Hacyc x). by apply tc_once. }
  set (R' := λ a b, R a b ∨ (R a x ∧ R x b)).
  assert (HR'dec : RelDecision R') by (intros a b; unfold R'; apply _).
  assert (Hsub : ∀ a b, tc R' a b → tc R a b).
  { intros a b Htc. induction Htc as [a b [Hab|[Hax Hxb]]|a b c [Hab|[Hax Hxb]] _ IHtc].
    - by apply tc_once.
    - eapply tc_l; [done|]. by apply tc_once.
    - by eapply tc_l.
    - eapply tc_l; [done|]. by eapply tc_l. }
  destruct (IH R' HR'dec) as (z & Hz & Hsink); [|done|].
  { intros a Ha. apply (Hacyc a). auto. }
  destruct (decide (R z x)) as [Hzx|Hzx].
  - exists x. split; [left|]. intros w Hw Hxw.
    apply elem_of_cons in Hw as [->|Hw].
    + apply (Hacyc x). by apply tc_once.
    + apply (Hsink w Hw). right. done.
  - exists z. split; [by right|]. intros w Hw Hzw.
    apply elem_of_cons in Hw as [->|Hw]; [done|].
    apply (Hsink w Hw). by left.
Qed.

(** Along a path of edges the position in a topological order decreases. *)
Lemma topological_path g sorted a b :
  topological g sorted → tc (edge g) a b →
  ∀ i, sorted !! i = Some a → ∃ j, j < i ∧ sorted !! j = Some b.
Proof.
  intros Htopo Htc. induction Htc as [a b Hab|a c b Hac _ IH]; intros i Hi.
  - eauto.
  - destruct (Htopo i a c Hi Hac) as (j & Hj & Hc).
    destruct (IH j Hc) as (k & Hk & Hb). exists k. split; [lia|done].
Qed.

Lemma topological_acyclic g sorted :
  NoDup sorted → topological g sorted →
  (∀ n, n ∈ map_keys g → n ∈ sorted) → acyclic g.
Proof.
  intros Hnd Htopo Hall n Htc.
  assert (Hn : n ∈ sorted).
  { apply Hall. inversion Htc as [? ? He|? ? ? He]; by eapply edge_source. }
  apply list_elem_of_lookup in Hn as [i Hi].
  destruct (topological_path g sorted n n Htopo Htc i Hi) as (j & Hj & Hjn).
  assert (i = j) by by eapply NoDup_lookup. lia.
Qed.

(** A graph whose entries each depend on earlier entries only is acyclic. *)
Lemma topological_keys_acyclic g :
  NoDup (map_keys g) → topological g (map_keys g) → acyclic g.
Proof. intros Hnd Htopo. by apply (topological_acyclic g (map_keys g)). Qed.

(* ===================================================================== *)
(** ** The cycle detector *)
(* ===================================================================== *)

Lemma filter_keys_elem {V} (P : string * V → Prop) `{!∀ e, Decision (P e)}
    (m : list (string * V)) n :
  n ∈ map_keys (filter P m) ↔ ∃ v, (n, v) ∈ m ∧ P (n, v).
Proof.
  unfold map_keys. rewrite list_elem_of_fmap. split.
  - intros ([k v] & -> & Hin). apply list_elem_of_filter in Hin as [? ?]. eauto.
  - intros (v & Hin & HP). exists (n, v). split; [done|].
    by apply list_elem_of_filter.
Qed.

Lemma filter_keys_NoDup {V} (P : string * V → Prop) `{!∀ e, Decision (P e)}
    (m : list (string * V)) :
  NoDup (map_keys m) → NoDup (map_keys (filter P m)).
Proof.
  unfold map_keys. induction m as [|[k v] m IH]; simpl; [done|].
  rewrite NoDup_cons. intros [Hk Hnd]. rewrite filter_cons.
  destruct (decide (P (k, v))); simpl; [|auto].
  apply NoDup_cons. split; [|auto].
  intros Hin. apply Hk. apply list_elem_of_fmap in Hin as (e & -> & He).
  apply list_elem_of_filter in He as [_ He]. apply list_elem_of_fmap. eauto.
Qed.

Lemma index_graph_fst acc l :
  (foldl index_entry acc l).1
  = foldl (λ m entry, map_set entry.1 (Z.of_nat (length entry.2)) m) acc.1 l.
Proof. revert acc. induction l as [|e l IH]; intros acc; simpl; [done | by rewrite IH]. Qed.

Lemma index_graph_snd acc l :
  (foldl index_entry acc l).2
  = foldl (λ f entry, foldl (push_forward entry.1) f entry.2) acc.2 l.
Proof. revert acc. induction l as [|e l IH]; intros acc; simpl; [done | by rewrite IH]. Qed.

Lemma degree_entry_keys g : map_keys (degree_entry <$> g) = map_keys g.
Proof. unfold map_keys. induction g as [|e g IH]; simpl; [done | by f_equal]. Qed.

Lemma degree_entry_get g n :
  map_get n (degree_entry <$> g) = (λ s, Z.of_nat (length s)) <$> map_get n g.
Proof.
  induction g as [|[k s] g IH]; simpl; [done|]. by case_decide.
Qed.

Lemma inDegree_entries g :
  NoDup (map_keys g) → (index_graph g).1 = degree_entry <$> g.
Proof.
  unfold index_graph. rewrite index_graph_fst. simpl.
  cut (∀ pre, NoDup (map_keys (pre ++ g)) →
         foldl (λ m entry, map_set entry.1 (Z.of_nat (length entry.2)) m)
               (degree_entry <$> pre) g
         = degree_entry <$> (pre ++ g)).
  { intros H Hnd. apply (H []). done. }
  induction g as [|e g IH]; intros pre Hnd; simpl.
  - by rewrite app_nil_r.
  - rewrite map_set_new.
    + replace ((degree_entry <$> pre) ++ [(e.1, Z.of_nat (length e.2))])
        with (degree_entry <$> (pre ++ [e])) by (by rewrite fmap_app).
      rewrite IH; rewrite <- (assoc_L (++)); done.
    + rewrite degree_entry_keys. unfold map_keys in *.
      rewrite fmap_app in Hnd. apply NoDup_app in Hnd as (_ & Hd & _).
      intros Hin. apply (Hd _ Hin). left.
Qed.

Lemma push_forward_lookup node ds fwd dep :
  NoDup ds →
  default [] (map_get dep (foldl (push_forward node) fwd ds))
  = default [] (map_get dep fwd) ++ (if decide (dep ∈ ds) then [node] else []).
Proof.
  revert fwd. induction ds as [|a ds IH]; intros fwd Hnd; simpl.
  - by rewrite app_nil_r.
  - apply NoDup_cons in Hnd as [Ha Hnd]. rewrite IH by done.
    unfold push_forward. rewrite map_get_set.
    destruct (decide (a = dep)) as [->|Hne]; simpl.
    + rewrite decide_False by done. rewrite decide_True by left.
      by rewrite app_nil_r.
    + destruct (decide (dep ∈ ds)) as [Hin|Hout].
      * rewrite decide_True by by right. done.
      * rewrite decide_False; [done|]. rewrite not_elem_of_cons. done.
Qed.

Lemma forward_lookup_fold l fwd dep :
  (∀ e, e ∈ l → NoDup e.2) →
  default [] (map_get dep (foldl (λ f entry, foldl (push_forward entry.1) f entry.2) fwd l))
  = default [] (map_get dep fwd) ++ dependents l dep.
Proof.
  unfold dependents. revert fwd. induction l as [|e l IH]; intros fwd Hnd; simpl.
  - by rewrite app_nil_r.
  - rewrite IH by (intros; apply Hnd; by right).
    rewrite push_forward_lookup by (apply Hnd; left).
    rewrite filter_cons. destruct (decide (dep ∈ e.2)); simpl.
    + by rewrite <- (assoc_L (++)).
    + by rewrite app_nil_r.
Qed.

(** [forward.get(node) ?? []] is the list of the dependents of [node]. *)
Lemma forward_dependents g node :
  sets_nodup g → NoDup (map_keys g) →
  default [] (map_get node (index_graph g).2) = dependents g node.
Proof.
  intros Hsets Hnd. unfold index_graph. rewrite index_graph_snd. simpl.
  rewrite forward_lookup_fold; [done|].
  intros [n s] Hin. simpl. apply (Hsets n). by apply map_get_elem_NoDup.
Qed.

Lemma dependents_elem g node n :
  NoDup (map_keys g) → n ∈ dependents g node ↔ edge g n node.
Proof.
  intros Hnd. unfold dependents. fold (map_keys (filter (λ entry, node ∈ entry.2) g)).
  rewrite filter_keys_elem. unfold edge. split.
  - intros (s & Hin & Hnode). exists s. split; [by apply map_get_elem_NoDup | done].
  - intros (s & Hget & Hnode). exists s. split; [by apply map_get_Some_elem | done].
Qed.

Lemma dependents_NoDup g node : NoDup (map_keys g) → NoDup (dependents g node).
Proof. apply filter_keys_NoDup. Qed.

Lemma filter_ext_elem {A} (P1 P2 : A → Prop)
    `{!∀ x, Decision (P1 x), !∀ x, Decision (P2 x)} (l : list A) :
  (∀ x, x ∈ l → P1 x ↔ P2 x) → filter P1 l = filter P2 l.
Proof.
  induction l as [|a l IH]; intros Hiff; [done|].
  rewrite !filter_cons.
  rewrite IH by (intros x Hx; apply Hiff; by right).
  apply decide_ext. apply Hiff. left.
Qed.

(** The inner loop: every dependent loses one, and those that reach zero
    join the queue. *)
Lemma relax_fold (D : list string) :
  ∀ inDeg q,
    NoDup D →
    let st := foldl relax (inDeg, q) D in
    map_keys st.1 = map_keys inDeg
    ∧ (∀ n, map_get n st.1
            = if decide (n ∈ D) then (λ z, z - 1)%Z <$> map_get n inDeg
              else map_get n inDeg)
    ∧ st.2 = q ++ filter (λ n, map_get n inDeg = Some 1%Z) D.
Proof.
  induction D as [|a D IH]; intros inDeg q Hnd; simpl.
  { split_and!; [done|done|by rewrite app_nil_r]. }
  apply NoDup_cons in Hnd as [Ha Hnd].
  assert (Hfilter : ∀ z, filter (λ n, map_get n (map_set a z inDeg) = Some 1%Z) D
                         = filter (λ n, map_get n inDeg = Some 1%Z) D).
  { intros z. apply filter_ext_elem. intros n Hn.
    rewrite map_get_set_ne; [done|]. intros ->. done. }
  unfold relax at 2 4 6. simpl. destruct (map_get a inDeg) as [d|] eqn:Hd; simpl.
  - destruct (IH (map_set a (d - 1)%Z inDeg)
               (if decide ((d - 1)%Z = 0%Z) then q ++ [a] else q) Hnd)
      as (Hk & Hget & Hq). simpl in *. split_and!.
    + rewrite Hk. apply map_keys_set_known. apply map_get_is_Some. eauto.
    + intros n. rewrite Hget, map_get_set.
      destruct (decide (a = n)) as [->|Hne].
      * rewrite decide_False by done. rewrite decide_True by left. by rewrite Hd.
      * destruct (decide (n ∈ D)).
        -- rewrite decide_True by by right. done.
        -- rewrite decide_False; [done|]. rewrite not_elem_of_cons. naive_solver.
    + rewrite Hq, Hfilter. rewrite filter_cons.
      destruct (decide ((d - 1)%Z = 0%Z)) as [Hz|Hz].
      * rewrite decide_True by (rewrite Hd; f_equal; lia).
        by rewrite <- (assoc_L (++)).
      * rewrite decide_False; [done|]. rewrite Hd. intros [= ->]. lia.
  - destruct (IH inDeg q Hnd) as (Hk & Hget & Hq). simpl in *. split_and!.
    + done.
    + intros n. rewrite Hget.
      destruct (decide (a = n)) as [->|Hne].
      * rewrite decide_False by done. rewrite decide_True by left. by rewrite Hd.
      * destruct (decide (n ∈ D)).
        -- rewrite decide_True by by right. done.
        -- rewrite decide_False; [done|]. rewrite not_elem_of_cons. naive_solver.
    + rewrite Hq. rewrite filter_cons. rewrite decide_False; [done|]. congruence.
Qed.

Lemma waiting_on_nil s : waiting_on [] s = s.
Proof.
  unfold waiting_on. induction s as [|a s IH]; [done|].
  rewrite filter_cons_True by apply not_elem_of_nil. by rewrite IH.
Qed.

Lemma waiting_on_empty sorted s d : waiting_on sorted s = [] → d ∈ s → d ∈ sorted.
Proof.
  intros Hnil Hd. destruct (decide (d ∈ sorted)) as [|Hout]; [done|].
  exfalso. eapply (filter_nil_not_elem_of _ s d); done.
Qed.

Lemma waiting_on_empty_iff sorted s : waiting_on sorted s = [] ↔ ∀ d, d ∈ s → d ∈ sorted.
Proof.
  split; [intros ? ?; by apply waiting_on_empty|].
  intros Hall. unfold waiting_on. induction s as [|a s IH]; [done|].
  rewrite filter_cons_False.
  - apply IH. intros d Hd. apply Hall. by right.
  - intros Hout. apply Hout, Hall. left.
Qed.

Lemma waiting_on_snoc_other sorted x s :
  x ∉ s → waiting_on (sorted ++ [x]) s = waiting_on sorted s.
Proof.
  intros Hx. apply filter_ext_elem. intros d Hd.
  rewrite elem_of_app, list_elem_of_singleton.
  assert (d ≠ x) by (by intros ->). naive_solver.
Qed.

Lemma waiting_on_snoc_dep sorted x s :
  NoDup s → x ∉ sorted → x ∈ s →
  length (waiting_on sorted s) = S (length (waiting_on (sorted ++ [x]) s)).
Proof.
  intros Hnd Hx. induction Hnd as [|a s Ha Hnd IH]; intros Hin.
  { by apply elem_of_nil in Hin. }
  unfold waiting_on in *. rewrite !filter_cons.
  destruct (decide (a = x)) as [->|Hne].
  - rewrite decide_True by done.
    rewrite decide_False.
    2:{ intros Hout. apply Hout. apply elem_of_app. right. left. }
    simpl. f_equal. f_equal. symmetry. by apply waiting_on_snoc_other.
  - apply elem_of_cons in Hin as [->|Hin]; [done|].
    destruct (decide (a ∉ sorted)) as [Hout|Hmem].
    + rewrite decide_True.
      2:{ rewrite elem_of_app, list_elem_of_singleton. naive_solver. }
      simpl. f_equal. auto.
    + rewrite decide_False; [auto|].
      rewrite elem_of_app. naive_solver.
Qed.

Lemma kahn_step g inDeg node queue' sorted :
  valid_graph g → kahn_inv g inDeg (node :: queue') sorted →
  kahn_inv g (foldl relax (inDeg, queue') (dependents g node)).1
             (foldl relax (inDeg, queue') (dependents g node)).2
             (sorted ++ [node]).
Proof.
  intros Hwf [Hkeys Hnd Hknown Hdeg Hzero Htopo].
  pose proof (valid_graph_sets g Hwf) as Hsets. destruct Hwf as [HK _].
  destruct (relax_fold (dependents g node) inDeg queue' (dependents_NoDup g node HK))
    as (Hk' & Hget' & Hq').
  set (st := foldl relax (inDeg, queue') (dependents g node)) in *.
  set (new := filter (λ n, map_get n inDeg = Some 1%Z) (dependents g node)) in *.
  assert (Hnode : node ∉ sorted).
  { apply NoDup_app in Hnd as (_ & Hd & _). intros Hin. apply (Hd node Hin). left. }
  assert (Hnew : ∀ n, n ∈ new ↔
            ∃ s, map_get n g = Some s ∧ node ∈ s ∧ length (waiting_on sorted s) = 1).
  { intros n. unfold new. rewrite list_elem_of_filter, dependents_elem by done. split.
    - intros [Hone (s & Hs & Hin)]. exists s. split_and!; [done..|].
      rewrite (Hdeg n s Hs) in Hone. injection Hone. lia.
    - intros (s & Hs & Hin & Hlen). split; [|by exists s].
      rewrite (Hdeg n s Hs), Hlen. done. }
  assert (Hshape : (sorted ++ [node]) ++ st.2 = (sorted ++ node :: queue') ++ new).
  { rewrite Hq'. rewrite <- !(assoc_L (++)). done. }
  split.
  - congruence.
  - rewrite Hshape. apply NoDup_app. split_and!; [done| |].
    + intros n Hold Hn. apply Hnew in Hn as (s & Hs & _ & Hlen).
      apply (Hzero n s Hs) in Hold. rewrite Hold in Hlen. done.
    + unfold new. apply NoDup_filter. by apply dependents_NoDup.
  - intros n. rewrite Hshape, elem_of_app. intros [Hold|Hn]; [auto|].
    apply Hnew in Hn as (s & Hs & _). apply map_get_is_Some. eauto.
  - intros n s Hs. rewrite Hget'. rewrite (Hdeg n s Hs). simpl.
    destruct (decide (n ∈ dependents g node)) as [Hin|Hout].
    + apply dependents_elem in Hin as (s' & Hs' & Hin); [|done]. simplify_eq.
      rewrite (waiting_on_snoc_dep sorted node s); [|by eapply Hsets|done..].
      simpl. f_equal. lia.
    + rewrite waiting_on_snoc_other; [done|].
      intros Hin. apply Hout. apply dependents_elem; [done|]. by exists s.
  - intros n s Hs. rewrite Hshape, elem_of_app, (Hzero n s Hs), Hnew.
    destruct (decide (node ∈ s)) as [Hin|Hout].
    + pose proof (waiting_on_snoc_dep sorted node s (Hsets n s Hs) Hnode Hin) as Hlen.
      split.
      * intros [Hnil|(s' & Hs' & _ & Hone)].
        -- rewrite Hnil in Hlen. done.
        -- simplify_eq. apply length_zero_iff_nil. lia.
      * intros Hnil. right. exists s. split_and!; [done..|]. rewrite Hlen, Hnil. done.
    + rewrite waiting_on_snoc_other by done. split; [|auto].
      intros [?|(s' & Hs' & Hin & _)]; [done|]. simplify_eq. done.
  - intros i n d Hi He. destruct (decide (i < length sorted)) as [Hlt|Hge].
    + rewrite lookup_app_l in Hi by done.
      destruct (Htopo i n d Hi He) as (j & Hj & Hd). exists j. split; [done|].
      rewrite lookup_app_l by lia. done.
    + rewrite lookup_app_r in Hi by lia.
      apply list_lookup_singleton_Some in Hi as [_ <-].
      destruct He as (s & Hs & Hd).
      assert (Hnil : waiting_on sorted s = []).
      { apply (Hzero node s Hs). apply elem_of_app. right. left. }
      apply (waiting_on_empty _ _ d Hnil) in Hd.
      apply list_elem_of_lookup in Hd as [j Hj]. exists j.
      pose proof (lookup_lt_Some _ _ _ Hj). split; [lia|].
      by rewrite lookup_app_l.
Qed.

Lemma kahn_initial g :
  valid_graph g → kahn_inv g (degree_entry <$> g) (initial_queue (degree_entry <$> g)) [].
Proof.
  intros [HK _].
  assert (Hq : ∀ n, n ∈ initial_queue (degree_entry <$> g)
                    ↔ map_get n (degree_entry <$> g) = Some 0%Z).
  { intros n. unfold initial_queue.
    fold (map_keys (filter (λ entry : string * Z, entry.2 = 0%Z) (degree_entry <$> g))).
    rewrite filter_keys_elem. split.
    - intros (z & Hin & Hz). simpl in Hz. subst z.
      apply map_get_elem_NoDup; [by rewrite degree_entry_keys | done].
    - intros Hget. exists 0%Z. split; [by apply map_get_Some_elem | done]. }
  split; simpl.
  - apply degree_entry_keys.
  - apply filter_keys_NoDup. by rewrite degree_entry_keys.
  - intros n Hn. apply Hq in Hn. rewrite <- (degree_entry_keys g).
    apply map_get_is_Some. eauto.
  - intros n s Hs. rewrite degree_entry_get, Hs, waiting_on_nil. done.
  - intros n s Hs. rewrite Hq, degree_entry_get, Hs, waiting_on_nil. simpl.
    split.
    + intros [= Hlen]. apply length_zero_iff_nil. lia.
    + intros ->. done.
  - intros i n d Hi. done.
Qed.

Lemma kahn_loop_inv g fuel :
  valid_graph g →
  ∀ inDeg queue sorted,
    kahn_inv g inDeg queue sorted →
    length (map_keys g) - length sorted < fuel →
    ∃ inDeg' sorted',
      kahn_loop fuel (index_graph g).2 inDeg queue sorted = Some sorted'
      ∧ kahn_inv g inDeg' [] sorted'.
Proof.
  intros Hwf. induction fuel as [|fuel IH]; intros inDeg queue sorted Hinv Hfuel.
  { lia. }
  destruct queue as [|node queue']; simpl.
  { eauto. }
  rewrite forward_dependents; [|by apply valid_graph_sets|apply Hwf].
  apply (IH _ _ _ (kahn_step g inDeg node queue' sorted Hwf Hinv)).
  assert (length (sorted ++ node :: queue') ≤ length (map_keys g)).
  { apply submseteq_length, NoDup_submseteq; [apply Hinv | apply Hinv]. }
  rewrite length_app in *. simpl in *. lia.
Qed.

(** The [while] loop ends, with the removed nodes in a topological order;
    a node is in [sorted] exactly when all its dependencies are. *)
Lemma kahn_sorted_spec g :
  valid_graph g →
  ∃ sorted,
    kahn_sorted g = Some sorted
    ∧ NoDup sorted
    ∧ (∀ n, n ∈ sorted → n ∈ map_keys g)
    ∧ topological g sorted
    ∧ (∀ n s, map_get n g = Some s → n ∈ sorted ↔ ∀ d, d ∈ s → d ∈ sorted).
Proof.
  intros Hwf. unfold kahn_sorted.
  rewrite inDegree_entries by apply Hwf.
  destruct (kahn_loop_inv g (S (length g)) Hwf _ _ _ (kahn_initial g Hwf))
    as (inDeg' & sorted & Hloop & [_ Hnd Hknown _ Hzero Htopo]).
  { unfold map_keys. rewrite length_fmap. simpl. lia. }
  rewrite app_nil_r in Hnd.
  exists sorted. split_and!; [done| done | | done |].
  - intros n Hn. apply Hknown. by rewrite app_nil_r.
  - intros n s Hs. rewrite <- waiting_on_empty_iff. rewrite <- (Hzero n s Hs).
    by rewrite app_nil_r.
Qed.

Lemma sorted_removed g sorted :
  topological g sorted → (∀ n, n ∈ sorted → n ∈ map_keys g) →
  ∀ n, n ∈ sorted → kahn_removed g n.
Proof.
  intros Htopo Hknown.
  cut (∀ i n, sorted !! i = Some n → kahn_removed g n).
  { intros H n Hn. apply list_elem_of_lookup in Hn as [i Hi]. eauto. }
  intros i. induction (lt_wf i) as [i _ IH]. intros n Hi.
  assert (Hn : n ∈ map_keys g) by (apply Hknown; by eapply list_elem_of_lookup_2).
  apply map_get_is_Some in Hn as [s Hs].
  apply (kahn_remove g n s Hs). intros d Hd.
  destruct (Htopo i n d Hi) as (j & Hj & Hjd); [by exists s|]. eauto.
Qed.

Lemma removed_sorted g (sorted : list string) :
  (∀ n s, map_get n g = Some s → n ∈ sorted ↔ ∀ d, d ∈ s → d ∈ sorted) →
  ∀ n, kahn_removed g n → n ∈ sorted.
Proof.
  intros Hiff n Hrem. induction Hrem as [n s Hs _ IH].
  apply (Hiff n s Hs). done.
Qed.

(** When [sorted] misses a node, the graph has a cycle. *)
Lemma kahn_stuck_cyclic g (sorted : list string) :
  closed_graph g →
  (∀ n s, map_get n g = Some s → n ∈ sorted ↔ ∀ d, d ∈ s → d ∈ sorted) →
  acyclic g → ∀ n, n ∈ map_keys g → n ∈ sorted.
Proof.
  intros Hwf Hiff Hacyc n Hn.
  destruct (decide (n ∈ sorted)) as [|Hout]; [done|]. exfalso.
  set (U := filter (λ k, k ∉ sorted) (map_keys g)).
  destruct (acyclic_sink U (edge g) Hacyc) as (x & Hx & Hsink).
  { intros HU. eapply (filter_nil_not_elem_of _ _ n HU); done. }
  apply list_elem_of_filter in Hx as [Hxout Hxin].
  apply map_get_is_Some in Hxin as [s Hs].
  destruct (waiting_on sorted s) as [|d w] eqn:Hw.
  { apply Hxout. apply (Hiff x s Hs). by apply waiting_on_empty_iff. }
  assert (Hd : d ∈ waiting_on sorted s) by (rewrite Hw; left).
  apply list_elem_of_filter in Hd as [Hdout Hds].
  apply (Hsink d).
  - apply list_elem_of_filter. split; [done|].
    apply (closed_graph_edge g x d Hwf). by exists s.
  - by exists s.
Qed.

(* ===================================================================== *)
(** ** The wave scheduler *)
(* ===================================================================== *)

Lemma readyb_true g completed node :
  readyb g completed node = true ↔ ready g completed node.
Proof.
  unfold readyb, ready, edge. rewrite forallb_forall. split.
  - intros Hall d (s & Hs & Hd). rewrite Hs in Hall. simpl in Hall.
    apply list_elem_of_In, Hall in Hd. by apply bool_decide_eq_true in Hd.
  - intros Hall d Hd. apply bool_decide_eq_true.
    destruct (map_get node g) as [s|]; simpl in Hd; [|done].
    apply Hall. exists s. split; [done|]. by apply list_elem_of_In.
Qed.

Lemma collect_ready_known g completed wave node :
  node ∈ map_keys g →
  collect_ready g completed wave node
  = Ok (if readyb g completed node then wave ++ [node] else wave).
Proof.
  intros Hin. apply map_get_is_Some in Hin as [s Hs].
  unfold collect_ready, is_ready, readyb. rewrite Hs. done.
Qed.

(** One pass collects the ready nodes of [remaining], in order. *)
Lemma scan_spec g completed remaining :
  (∀ n, n ∈ remaining → n ∈ map_keys g) →
  scan g completed remaining
  = Ok (filter (λ n, readyb g completed n = true) remaining).
Proof.
  unfold scan.
  cut (∀ acc, (∀ n, n ∈ remaining → n ∈ map_keys g) →
         foldM (collect_ready g completed) remaining acc
         = Ok (acc ++ filter (λ n, readyb g completed n = true) remaining)).
  { intros H. apply (H []). }
  induction remaining as [|a l IH]; intros acc Hsub; simpl.
  - by rewrite app_nil_r.
  - rewrite collect_ready_known by (apply Hsub; left). simpl.
    rewrite IH by (intros; apply Hsub; by right).
    rewrite filter_cons. destruct (readyb g completed a); simpl.
    + by rewrite <- (assoc_L (++)).
    + done.
Qed.

Lemma settle_completed c w :
  NoDup (c ++ w) → foldl (λ s node, set_add node s) c w = c ++ w.
Proof.
  revert c. induction w as [|a w IH]; intros c Hnd; simpl.
  - by rewrite app_nil_r.
  - assert (set_add a c = c ++ [a]) as ->.
    { unfold set_add, set_has. rewrite bool_decide_eq_false_2; [done|].
      apply NoDup_app in Hnd as (_ & Hd & _). intros Hin. apply (Hd a Hin). left. }
    rewrite IH; rewrite <- (assoc_L (++)); done.
Qed.

Lemma settle_remaining r w :
  foldl (λ s node, set_delete node s) r w = filter (λ x, x ∉ w) r.
Proof.
  revert r. induction w as [|a w IH]; intros r; simpl.
  - induction r as [|x r IHr]; [done|].
    rewrite filter_cons_True by apply not_elem_of_nil. by f_equal.
  - rewrite IH. unfold set_delete. rewrite list_filter_filter.
    apply list_filter_iff. intros x. rewrite not_elem_of_cons. naive_solver.
Qed.

Lemma sort_wave_perm w : sort_wave w ≡ₚ w.
Proof. apply merge_sort_Permutation. Qed.

Lemma sort_wave_elem w x : x ∈ sort_wave w ↔ x ∈ w.
Proof. by rewrite sort_wave_perm. Qed.

Lemma sort_wave_nonempty w : w ≠ [] → sort_wave w ≠ [].
Proof.
  intros Hne Hnil. apply Hne. apply Permutation_nil_r.
  rewrite <- Hnil. symmetry. apply sort_wave_perm.
Qed.

(** A pass that schedules something leaves fewer nodes. *)
Lemma settle_decreases st wave x :
  x ∈ wave → x ∈ remaining st →
  length (remaining (settle st (sort_wave wave))) < length (remaining st).
Proof.
  intros Hw Hr. simpl. rewrite settle_remaining.
  apply (length_filter_lt _ _ x); [done|].
  intros Hout. apply Hout. by apply sort_wave_elem.
Qed.

Lemma settle_remaining_sub st wave n :
  n ∈ remaining (settle st wave) → n ∈ remaining st.
Proof. simpl. rewrite settle_remaining, list_elem_of_filter. naive_solver. Qed.

Lemma initial_remaining g n : n ∈ remaining (initial_sched g) ↔ n ∈ map_keys g.
Proof. simpl. apply set_of_list_spec. Qed.

Lemma initial_remaining_length g : length (remaining (initial_sched g)) ≤ length g.
Proof.
  simpl. destruct (set_of_list_spec (map_keys g)) as [Hnd Hin].
  transitivity (length (map_keys g)).
  - apply submseteq_length, NoDup_submseteq; [done|]. intros x. apply Hin.
  - unfold map_keys. by rewrite length_fmap.
Qed.

Lemma sched_inv_initial g : sched_inv g (initial_sched g).
Proof.
  destruct (set_of_list_spec (map_keys g)) as [Hnd Hin].
  split; simpl.
  - done.
  - constructor.
  - done.
  - intros n. rewrite Hin, elem_of_nil. naive_solver.
  - intros n Hn. by apply elem_of_nil in Hn.
  - constructor.
  - intros k w n d Hk. done.
Qed.

Lemma sched_inv_pass g st wave :
  sched_inv g st →
  scan g (completed st) (remaining st) = Ok wave → wave ≠ [] →
  sched_inv g (settle st (sort_wave wave)).
Proof.
  intros [Hc Hndc Hndr Hcover Hdisj Hne Horder] Hscan Hwave.
  rewrite scan_spec in Hscan by (intros n Hn; apply Hcover; by right).
  injection Hscan as Hscan.
  assert (Hin : ∀ n, n ∈ sort_wave wave ↔ n ∈ remaining st ∧ ready g (completed st) n).
  { intros n. rewrite sort_wave_elem, <- Hscan, list_elem_of_filter, readyb_true.
    naive_solver. }
  assert (Hndw : NoDup (sort_wave wave)).
  { rewrite sort_wave_perm, <- Hscan. by apply NoDup_filter. }
  assert (Hcw : NoDup (completed st ++ sort_wave wave)).
  { apply NoDup_app. split_and!; [done| |done].
    intros n Hn Hw. apply Hin in Hw as [Hr _]. by apply (Hdisj n). }
  split; unfold settle; simpl.
  - rewrite settle_completed by done. rewrite concat_app. simpl.
    by rewrite app_nil_r, Hc.
  - by rewrite settle_completed.
  - rewrite settle_remaining. by apply NoDup_filter.
  - intros n. rewrite settle_completed, settle_remaining by done.
    rewrite Hcover, elem_of_app, list_elem_of_filter.
    destruct (decide (n ∈ sort_wave wave)) as [Hw|Hw]; [|naive_solver].
    apply Hin in Hw as Hw'. naive_solver.
  - intros n. rewrite settle_completed, settle_remaining by done.
    rewrite elem_of_app, list_elem_of_filter. intros [Hn|Hn] [Hout Hr]; [|done].
    by apply (Hdisj n).
  - apply Forall_app. split; [done|]. apply Forall_singleton.
    by apply sort_wave_nonempty.
  - intros k w n d Hk Hn He.
    destruct (decide (k < length (waves st))) as [Hlt|Hge].
    + rewrite lookup_app_l in Hk by done.
      destruct (Horder k w n d Hk Hn He) as (j & w' & Hj & Hw' & Hd).
      exists j, w'. split_and!; [done| |done]. rewrite lookup_app_l by lia. done.
    + rewrite lookup_app_r in Hk by lia.
      apply list_lookup_singleton_Some in Hk as [Hk <-].
      apply Hin in Hn as [_ Hready]. apply Hready in He.
      rewrite Hc in He. apply list_elem_of_In, in_concat in He as (w' & Hw' & Hd).
      apply list_elem_of_In in Hw', Hd.
      apply list_elem_of_lookup in Hw' as [j Hj].
      exists j, w'. pose proof (lookup_lt_Some _ _ _ Hj).
      split_and!; [lia| |done]. by rewrite lookup_app_l.
Qed.

Lemma reachable_inv g st : reachable g st → sched_inv g st.
Proof.
  induction 1 as [|st wave _ IH _ Hscan Hwave].
  - apply sched_inv_initial.
  - by apply sched_inv_pass.
Qed.

Lemma waves_loop_done fuel g st :
  remaining st = [] → waves_loop fuel g st = Some (Ok (waves st)).
Proof. intros Hr. destruct fuel; simpl; by rewrite Hr. Qed.

Lemma waves_loop_pass fuel g st :
  remaining st ≠ [] →
  waves_loop (S fuel) g st =
  match scan g (completed st) (remaining st) with
  | Throw e => Some (Throw e)
  | Ok [] => Some (Throw (Error (deadlock_message (remaining st))))
  | Ok wave => waves_loop fuel g (settle st (sort_wave wave))
  end.
Proof. intros Hr. simpl. by destruct (remaining st). Qed.

Lemma remaining_fuel st : remaining st ≠ [] → length (remaining st) ≤ 0 → False.
Proof. destruct (remaining st); simpl; [done | lia]. Qed.

Lemma filter_head_elem {A} (P : A → Prop) `{!∀ x, Decision (P x)} (l : list A) y w :
  filter P l = y :: w → y ∈ l ∧ P y.
Proof.
  intros Hf. assert (Hy : y ∈ filter P l) by (rewrite Hf; left).
  apply list_elem_of_filter in Hy. naive_solver.
Qed.

(** With fuel for every remaining node the loop ends: it returns the
    waves or throws the deadlock error. *)
Lemma waves_loop_total g fuel :
  ∀ st,
    (∀ n, n ∈ remaining st → n ∈ map_keys g) →
    length (remaining st) ≤ fuel →
    ∃ r, waves_loop fuel g st = Some r
         ∧ ((∃ ws, r = Ok ws) ∨ ∃ rem, r = Throw (Error (deadlock_message rem))).
Proof.
  induction fuel as [|fuel IH]; intros st Hsub Hlen;
    (destruct (decide (remaining st = [])) as [Hr|Hr];
     [rewrite waves_loop_done by done; eauto|]).
  - destruct (remaining_fuel st Hr Hlen).
  - rewrite waves_loop_pass, scan_spec by done.
    destruct (filter _ (remaining st)) as [|y wave] eqn:Hwave; [eauto|].
    apply filter_head_elem in Hwave as [Hy _].
    apply IH.
    + intros n Hn. by apply Hsub, (settle_remaining_sub st (sort_wave (y :: wave))).
    + pose proof (settle_decreases st (y :: wave) y ltac:(left) Hy). lia.
Qed.

(** In an acyclic graph some remaining node is ready. *)
Lemma acyclic_progress g st :
  wf_graph g → acyclic g → sched_inv g st → remaining st ≠ [] →
  ∃ x, x ∈ remaining st ∧ readyb g (completed st) x = true.
Proof.
  intros Hwf Hacyc Hinv Hne.
  destruct (acyclic_sink (remaining st) (edge g) Hacyc Hne) as (x & Hx & Hsink).
  exists x. split; [done|]. apply readyb_true. intros d Hd.
  pose proof (wf_graph_closed g x d Hwf Hd) as HdK.
  apply (si_cover g st Hinv) in HdK as [?|Hr]; [done|].
  destruct (Hsink d Hr Hd).
Qed.

Lemma sched_inv_known g st n : sched_inv g st → n ∈ remaining st → n ∈ map_keys g.
Proof. intros Hinv Hn. apply (si_cover g st Hinv). by right. Qed.

Lemma waves_loop_acyclic g fuel :
  wf_graph g → acyclic g →
  ∀ st, sched_inv g st → length (remaining st) ≤ fuel →
    ∃ st', waves_loop fuel g st = Some (Ok (waves st'))
           ∧ sched_inv g st' ∧ remaining st' = [].
Proof.
  intros Hwf Hacyc.
  induction fuel as [|fuel IH]; intros st Hinv Hlen;
    (destruct (decide (remaining st = [])) as [Hr|Hr];
     [rewrite waves_loop_done by done; eauto|]).
  - destruct (remaining_fuel st Hr Hlen).
  - rewrite waves_loop_pass by done.
    pose proof (scan_spec g (completed st) (remaining st)
                  (λ n, sched_inv_known g st n Hinv)) as Hscan.
    destruct (acyclic_progress g st Hwf Hacyc Hinv Hr) as (y & Hy & Hready).
    destruct (filter _ (remaining st)) as [|z wave] eqn:Hwave.
    { exfalso. eapply (filter_nil_not_elem_of _ _ y Hwave); done. }
    rewrite Hscan. apply IH.
    + by apply sched_inv_pass.
    + apply filter_head_elem in Hwave as [Hz _].
      pose proof (settle_decreases st (z :: wave) z ltac:(left) Hz). lia.
Qed.

(** The loop, started in the initial state, passes through every
    reachable state. *)
Lemma reachable_loop g st :
  reachable g st →
  ∃ fuel, length (remaining st) ≤ fuel
          ∧ buildExecutionWaves g = waves_loop fuel g st.
Proof.
  induction 1 as [|st wave Hreach (fuel & Hlen & Hloop) Hne Hscan Hwave].
  - exists (length g). split; [apply initial_remaining_length | done].
  - destruct fuel as [|fuel]; [destruct (remaining_fuel st Hne Hlen)|].
    exists fuel. split.
    + destruct wave as [|x wave]; [done|].
      rewrite scan_spec in Hscan
        by (intros n; apply sched_inv_known; by apply reachable_inv).
      injection Hscan as Hscan. apply filter_head_elem in Hscan as [Hx _].
      pose proof (settle_decreases st (x :: wave) x ltac:(left) Hx). lia.
    + rewrite Hloop, waves_loop_pass, Hscan by done. by destruct wave.
Qed.

Lemma waves_loop_throws g fuel :
  ∀ st e,
    reachable g st → waves_loop fuel g st = Some (Throw e) →
    ∃ st', reachable g st' ∧ remaining st' ≠ []
           ∧ scan g (completed st') (remaining st') = Ok []
           ∧ e = Error (deadlock_message (remaining st')).
Proof.
  induction fuel as [|fuel IH]; intros st e Hreach;
    (destruct (decide (remaining st = [])) as [Hr|Hr];
     [by rewrite waves_loop_done by done|]).
  - simpl. by destruct (remaining st).
  - rewrite waves_loop_pass by done.
    pose proof (scan_spec g (completed st) (remaining st)
                  (λ n, sched_inv_known g st n (reachable_inv g st Hreach))) as Hscan.
    destruct (filter _ (remaining st)) as [|z wave] eqn:Hwave; rewrite Hscan.
    + intros [= <-]. exists st. done.
    + apply IH. by apply reach_pass.
Qed.

(* ===================================================================== *)
(** ** From the detector to the scheduler *)
(* ===================================================================== *)

Lemma sorted_length (g : list (string * list string)) (sorted : list string) :
  NoDup sorted → (∀ n, n ∈ sorted → n ∈ map_keys g) → length sorted ≤ length g.
Proof.
  intros Hnd Hknown. transitivity (length (map_keys g)).
  - by apply submseteq_length, NoDup_submseteq.
  - unfold map_keys. by rewrite length_fmap.
Qed.

Lemma sorted_covers (g : list (string * list string)) (sorted : list string) :
  NoDup sorted → (∀ n, n ∈ sorted → n ∈ map_keys g) →
  length g ≤ length sorted → ∀ n, n ∈ map_keys g → n ∈ sorted.
Proof.
  intros Hnd Hknown Hlen.
  assert (Hperm : sorted ≡ₚ map_keys g).
  { apply submseteq_length_Permutation.
    - by apply NoDup_submseteq.
    - unfold map_keys. by rewrite length_fmap. }
  intros n Hn. by rewrite Hperm.
Qed.

(** On every [Map<string, Set<string>>] the detector returns. *)
Lemma detectCycles_total g : valid_graph g → is_Some (detectCycles g).
Proof.
  intros Hvalid. unfold detectCycles.
  destruct (kahn_sorted_spec g Hvalid) as (sorted & -> & _). simpl. eauto.
Qed.

(** It returns [null] exactly for the acyclic graphs whose dependency
    sets name keys of the graph: a dependency that is not a key keeps its
    dependents' in-degree above zero for ever. *)
Lemma detectCycles_null g :
  valid_graph g → detectCycles g = Some None ↔ acyclic g ∧ closed_graph g.
Proof.
  intros Hvalid. unfold detectCycles.
  destruct (kahn_sorted_spec g Hvalid) as (sorted & -> & Hnd & Hknown & Htopo & Hiff).
  simpl. pose proof (sorted_length g sorted Hnd Hknown) as Hlen.
  destruct (decide (length sorted < length g)) as [Hlt|Hge].
  - split; [done|]. intros [Hacyc Hclosed]. exfalso.
    assert (map_keys g ⊆+ sorted) as Hsub.
    { apply NoDup_submseteq; [apply Hvalid|].
      by apply (kahn_stuck_cyclic g sorted Hclosed Hiff Hacyc). }
    apply submseteq_length in Hsub. unfold map_keys in Hsub.
    rewrite length_fmap in Hsub. lia.
  - split; [intros _|done].
    assert (Hall : ∀ n, n ∈ map_keys g → n ∈ sorted).
    { apply sorted_covers; [done..|lia]. }
    split.
    + by apply (topological_acyclic g sorted).
    + apply closed_graph_intro; [apply Hvalid|]. intros n m He.
      pose proof (Hall n (edge_source g n m He)) as Hn.
      apply list_elem_of_lookup in Hn as [i Hi].
      destruct (Htopo i n m Hi He) as (j & _ & Hj).
      apply Hknown. by eapply list_elem_of_lookup_2.
Qed.

(** A graph the detector lets through is scheduled without an error. *)
Lemma detectCycles_gate g :
  valid_graph g → detectCycles g = Some None →
  ∃ ws, buildExecutionWaves g = Some (Ok ws).
Proof.
  intros Hvalid Hnull. apply detectCycles_null in Hnull as [Hacyc Hclosed]; [|done].
  destruct (waves_loop_acyclic g (length g) (conj Hvalid Hclosed) Hacyc (initial_sched g))
    as (st & Hloop & _).
  - apply sched_inv_initial.
  - apply initial_remaining_length.
  - eauto.
Qed.

(** The run of [run-pipeline.ts] up to the scheduler: the builder's graph
    is a dependency graph, and when the detector lets it through the
    scheduler returns its waves. *)
Lemma pipeline_schedules d :
  wf_def d →
  ∃ g, buildDependencyGraph d = Ok g
       ∧ wf_graph g
       ∧ (detectCycles g = Some None → ∃ ws, buildExecutionWaves g = Some (Ok ws)).
Proof.
  intros Hwf. destruct (buildDependencyGraph_wf d Hwf) as (g & Hg & Hwfg).
  exists g. split_and!; [done..|]. apply detectCycles_gate, Hwfg.
Qed.

(* ===================================================================== *)
(** ** The state tracker *)
(* ===================================================================== *)

Lemma agent_status_text_inv s : agent_status_of_text (agent_status_text s) = Some s.
Proof. by destruct s. Qed.

Lemma pipeline_status_text_inv s :
  pipeline_status_of_text (pipeline_status_text s) = Some s.
Proof. by destruct s. Qed.

(** Reading back the document of an agent gives the agent. *)
Lemma agent_json_inv a : agent_of_json (agent_to_json a) = Some a.
Proof.
  destruct a as [name status iteration wave [startedAt|] [completedAt|] [err|]];
    unfold agent_of_json, agent_to_json; simpl;
    rewrite agent_status_text_inv; reflexivity.
Qed.

Lemma agent_entry_json_inv entry :
  agent_entry_of_json (prod_map id agent_to_json entry) = Some entry.
Proof.
  destruct entry as [k a]. unfold agent_entry_of_json. simpl.
  by rewrite agent_json_inv.
Qed.

(** Reading back the document of a state gives the state, less an agent
    that is the prototype of the [agents] object. *)
Lemma state_json_inv s : state_of_json (state_to_json s) = Some (snapshot s).
Proof.
  destruct s as [name status mode iteration targetCount agents proto startedAt
                   [completedAt|]];
    unfold state_of_json, state_to_json, snapshot; simpl;
    rewrite pipeline_status_text_inv; simpl;
    rewrite (mapM_fmap_Some _ _ _ agent_entry_json_inv); simpl;
    by rewrite list_to_map_to_list.
Qed.

Lemma snapshot_own s : ss_agents_proto s = false → snapshot s = s.
Proof. destruct s. unfold snapshot, own_agents. simpl. by intros ->. Qed.

(** Every agent but the one named [__proto__] is a property of the
    [agents] object. *)
Lemma own_agents_lookup s name :
  name ≠ "__proto__" → own_agents s !! name = ss_agents s !! name.
Proof.
  intros Hne. unfold own_agents.
  destruct (ss_agents_proto s); [|done]. by rewrite lookup_delete_ne.
Qed.

Section seeding.
Implicit Types (s : SwarmState) (names : list string).

Lemma seeded_lookup names s b :
  ss_agents (foldl (λ s name, assign_entry name (seed_agent name) s) s names) !! b
  = if decide (b ∈ names) then Some (seed_agent b) else ss_agents s !! b.
Proof.
  revert s. induction names as [|a names IH]; intros s; simpl; [done|].
  rewrite IH. simpl. destruct (decide (b ∈ names)) as [Hin|Hout].
  - rewrite decide_True by by right. done.
  - destruct (decide (a = b)) as [->|Hne].
    + rewrite decide_True by left. by rewrite lookup_insert_eq.
    + rewrite decide_False by (rewrite not_elem_of_cons; naive_solver).
      by rewrite lookup_insert_ne.
Qed.

(** The loop of [init] changes the [agents] object only. *)
Lemma seeded_fields names s :
  let s' := foldl (λ s name, assign_entry name (seed_agent name) s) s names in
  ss_name s' = ss_name s ∧ ss_status s' = ss_status s ∧ ss_mode s' = ss_mode s
  ∧ ss_iteration s' = ss_iteration s ∧ ss_targetCount s' = ss_targetCount s
  ∧ ss_startedAt s' = ss_startedAt s ∧ ss_completedAt s' = ss_completedAt s.
Proof.
  revert s. induction names as [|a names IH]; intros s; simpl; [done|].
  destruct (IH (assign_entry a (seed_agent a) s)) as (-> & -> & -> & -> & -> & -> & ->).
  done.
Qed.

(** No prototype is set when [__proto__] is not among the names. *)
Lemma seeded_proto names s :
  "__proto__" ∉ names →
  ss_agents_proto (foldl (λ s name, assign_entry name (seed_agent name) s) s names)
  = ss_agents_proto s.
Proof.
  revert s. induction names as [|a names IH]; intros s Hout; simpl; [done|].
  apply not_elem_of_cons in Hout as [Hne Hout]. rewrite IH by done. simpl.
  rewrite bool_decide_eq_false_2 by naive_solver. by rewrite orb_false_r.
Qed.
End seeding.

Lemma updateAgent_tracked name update t w a :
  ss_agents (state t) !! name = Some a →
  updateAgent name update t w
  = (set_state t (set_agents (state t) (<[name := assign_agent a update]> (ss_agents (state t)))),
     persist (set_state t (set_agents (state t)
                (<[name := assign_agent a update]> (ss_agents (state t))))) w).
Proof. intros Ha. unfold updateAgent. by rewrite Ha. Qed.

Lemma updateAgent_untracked name update t w :
  ss_agents (state t) !! name = None → updateAgent name update t w = (t, w).
Proof. intros Ha. unfold updateAgent. by rewrite Ha. Qed.

(** After a mutation the file holds the document of the state in memory. *)
Lemma persist_file t w : files (persist t w) !! statePath t = Some (state_to_json (state t)).
Proof. unfold persist. simpl. by rewrite lookup_insert_eq. Qed.

Lemma load_persisted t t' w :
  swarmDir t' = swarmDir t →
  files w !! statePath t = Some (state_to_json (state t)) →
  (load t' w).1 = Some (snapshot (state t)).
Proof.
  intros Hdir Hfile. unfold load, statePath in *. rewrite Hdir, Hfile. simpl.
  by rewrite state_json_inv.
Qed.

(* ===================================================================== *)
(** ** The examples of the specification *)
(* ===================================================================== *)

Example build_abc :
  buildDependencyGraph abc_def = Ok abc_graph.
Proof. reflexivity. Qed.

Example waves_abc :
  buildExecutionWaves abc_graph = Some (Ok [["A"]; ["B"]; ["C"]]).
Proof. vm_compute. reflexivity. Qed.

Example cycles_abc : detectCycles abc_graph = Some None.
Proof. vm_compute. reflexivity. Qed.

Example build_xy :
  buildDependencyGraph xy_def = Ok [("X", []); ("Y", ["X"])].
Proof. reflexivity. Qed.

Example waves_xy :
  buildExecutionWaves [("X", []); ("Y", ["X"])] = Some (Ok [["X"]; ["Y"]]).
Proof. vm_compute. reflexivity. Qed.

Example build_pqr :
  buildDependencyGraph pqr_def = Ok [("P", []); ("Q", ["P"]); ("R", ["Q"])].
Proof. reflexivity. Qed.

Example waves_pqr :
  buildExecutionWaves [("P", []); ("Q", ["P"]); ("R", ["Q"])]
  = Some (Ok [["P"]; ["Q"]; ["R"]]).
Proof. vm_compute. reflexivity. Qed.

(** The same agents in the mode [parallel]: no chain. *)
Example build_pqr_parallel :
  buildDependencyGraph
    (mk_def "parallel" [mk_agent "P" [] []; mk_agent "Q" [] []; mk_agent "R" [] []])
  = Ok [("P", []); ("Q", []); ("R", [])].
Proof. reflexivity. Qed.

(** One explicit edge anywhere switches the chain off. *)
Example build_sparse :
  buildDependencyGraph
    (mk_def "pipeline" [mk_agent "P" [] []; mk_agent "Q" [] []; mk_agent "R" ["P"] []])
  = Ok [("P", []); ("Q", []); ("R", ["P"])].
Proof. reflexivity. Qed.

Example cycles_mn : detectCycles mn_graph = Some (Some ["M"; "N"]).
Proof. vm_compute. reflexivity. Qed.

Example cycles_three :
  detectCycles [("A", ["C"]); ("B", ["A"]); ("C", ["B"]); ("D", [])]
  = Some (Some ["A"; "B"; "C"]).
Proof. vm_compute. reflexivity. Qed.

Example waves_diamond :
  buildExecutionWaves [("d", ["c"; "b"]); ("c", ["a"]); ("b", ["a"]); ("a", [])]
  = Some (Ok [["a"]; ["b"; "c"]; ["d"]]).
Proof. vm_compute. reflexivity. Qed.

Example waves_mn :
  buildExecutionWaves mn_graph
  = Some (Throw (Error
      "Deadlock: agents [M, N] cannot make progress. This indicates a bug in cycle detection.")).
Proof. vm_compute. reflexivity. Qed.

(** A dependency that is no key of the graph, which the builder never
    produces: the detector reports its dependent, and the scheduler, asked
    all the same, stops on it. *)
Example cycles_dangling : detectCycles [("A", ["Z"])] = Some (Some ["A"]).
Proof. vm_compute. reflexivity. Qed.

Example waves_dangling :
  buildExecutionWaves [("A", ["Z"])]
  = Some (Throw (Error (deadlock_message ["A"]))).
Proof. vm_compute. reflexivity. Qed.

(** An [agentOrder] that names no agent makes the chaining loop fail. *)
Example build_stray_order :
  buildDependencyGraph
    {| def_name := "swarm"; def_mode := "pipeline"; def_targetCount := 1;
       def_agents := [("A", mk_agent "A" [] [])];
       def_agentOrder := ["A"; "stray"] |}
  = Throw undefined_deref.
Proof. reflexivity. Qed.

Example system_prompt :
  buildSystemPrompt
    {| agent_name := "a"; agent_role := "tester"; agent_task := "test";
       agent_extraContext := Some "Be brief."; waitsFor := []; reportsTo := [] |}
  = "You are a tester." +:+ String (Ascii.ascii_of_nat 10)
      (String (Ascii.ascii_of_nat 10) "Be brief.").
Proof. reflexivity. Qed.

(* ===================================================================== *)
(** ** Theorems *)
(* ===================================================================== *)

(** Settles a closed decidable proposition by evaluating its decision. *)
Ltac compute_decision := apply (bool_decide_unpack _); vm_compute; exact I.

Lemma concat_NoDup_disjoint (ws : list (list string)) :
  NoDup (concat ws) →
  ∀ i j wi wj x, ws !! i = Some wi → ws !! j = Some wj → x ∈ wi → x ∈ wj → i = j.
Proof.
  induction ws as [|w ws IH]; simpl; intros Hnd i j wi wj x Hi Hj Hxi Hxj.
  { done. }
  apply NoDup_app in Hnd as (_ & Hdisj & Hnd).
  assert (Hlater : ∀ k wk, ws !! k = Some wk → x ∈ wk → x ∈ concat ws).
  { intros k wk Hk Hx. apply list_elem_of_In, in_concat. exists wk.
    split; apply list_elem_of_In; [by eapply list_elem_of_lookup_2 | done]. }
  destruct i as [|i], j as [|j]; simpl in *; simplify_eq.
  - done.
  - destruct (Hdisj x Hxi). eauto.
  - destruct (Hdisj x Hxj). eauto.
  - f_equal. eauto.
Qed.

Lemma acyclicb_true g : wf_graph g → acyclicb g = true → acyclic g.
Proof.
  intros Hwf. unfold acyclicb.
  destruct (kahn_sorted_spec g (proj1 Hwf)) as (sorted & -> & Hnd & Hknown & Htopo & _).
  intros Hlen. apply bool_decide_eq_true in Hlen.
  apply (topological_acyclic g sorted Hnd Htopo). by apply sorted_covers.
Qed.

(** C1: for every acyclic dependency graph (a map from each agent name to
    a set of agent names of the graph), [buildExecutionWaves] returns
    waves that are non-empty and pairwise disjoint, that together hold
    every agent name of the graph exactly once, and in which every
    dependency of an agent of wave [k] lies in a wave of index strictly
    smaller than [k]. *)
Theorem buildExecutionWaves_acyclic g :
  wf_graph g → acyclic g →
  ∃ ws, buildExecutionWaves g = Some (Ok ws)
        ∧ Forall (λ w, w ≠ []) ws
        ∧ (∀ i j wi wj x,
             ws !! i = Some wi → ws !! j = Some wj → x ∈ wi → x ∈ wj → i = j)
        ∧ NoDup (concat ws)
        ∧ concat ws ≡ₚ map_keys g
        ∧ ∀ k w n d,
            ws !! k = Some w → n ∈ w → edge g n d →
            ∃ j w', j < k ∧ ws !! j = Some w' ∧ d ∈ w'.
Proof.
  intros Hwf Hacyc.
  destruct (waves_loop_acyclic g (length g) Hwf Hacyc (initial_sched g))
    as (st & Hloop & [Hc Hndc _ Hcover _ Hne Horder] & Hrem).
  { apply sched_inv_initial. }
  { apply initial_remaining_length. }
  exists (waves st). rewrite <- Hc. split_and!; [done|done| |done| |done].
  - apply concat_NoDup_disjoint. by rewrite <- Hc.
  - apply NoDup_Permutation; [done|by apply wf_graph_keys|].
    intros n. rewrite Hcover, Hrem, elem_of_nil. naive_solver.
Qed.

Lemma buildExecutionWaves_acyclic_witness :
  wf_graph abc_graph ∧ acyclic abc_graph
  ∧ ∃ ws, buildExecutionWaves abc_graph = Some (Ok ws)
          ∧ Forall (λ w, w ≠ []) ws
          ∧ (∀ i j wi wj x,
               ws !! i = Some wi → ws !! j = Some wj → x ∈ wi → x ∈ wj → i = j)
          ∧ NoDup (concat ws)
          ∧ concat ws ≡ₚ map_keys abc_graph
          ∧ ∀ k w n d,
              ws !! k = Some w → n ∈ w → edge abc_graph n d →
              ∃ j w', j < k ∧ ws !! j = Some w' ∧ d ∈ w'.
Proof.
  assert (Hwf : wf_graph abc_graph) by compute_decision.
  assert (Hacyc : acyclic abc_graph) by (apply acyclicb_true; [done | vm_compute; reflexivity]).
  split_and!; [done | done | exact (buildExecutionWaves_acyclic abc_graph Hwf Hacyc)].
Defined.

(** C2: for every dependency graph (a map from each agent name to a set
    of agent names of the graph), [detectCycles] returns [null] if and
    only if the graph is acyclic; a list it returns holds exactly the
    nodes that Kahn's algorithm leaves unremoved, each once. For two
    agents that depend on each other it is the list of the two. *)
Theorem detectCycles_kahn g :
  wf_graph g →
  ∃ r, detectCycles g = Some r
       ∧ (r = None ↔ acyclic g)
       ∧ ∀ l, r = Some l →
           NoDup l ∧ ∀ n, n ∈ l ↔ n ∈ map_keys g ∧ ¬ kahn_removed g n.
Proof.
  intros [Hvalid Hclosed].
  destruct (detectCycles_total g Hvalid) as [r Hr]. exists r. split; [done|].
  split.
  - destruct r as [l|].
    + split; [done|]. intros Hacyc.
      assert (Hnull : detectCycles g = Some None) by by apply detectCycles_null.
      congruence.
    + split; [intros _|done]. by apply (detectCycles_null g Hvalid).
  - intros l ->. unfold detectCycles in Hr.
    destruct (kahn_sorted_spec g Hvalid) as (sorted & Hs & Hnd & Hknown & Htopo & Hiff).
    rewrite Hs in Hr. simpl in Hr. case_decide; [|done]. injection Hr as <-.
    split; [apply NoDup_filter, Hvalid|].
    intros n. rewrite list_elem_of_filter. split.
    + intros [Hout Hn]. split; [done|]. intros Hrem.
      by apply Hout, (removed_sorted g sorted Hiff).
    + intros [Hn Hrem]. split; [|done]. intros Hin.
      by apply Hrem, (sorted_removed g sorted Htopo Hknown).
Qed.

Lemma detectCycles_kahn_witness :
  wf_graph mn_graph
  ∧ detectCycles mn_graph = Some (Some ["M"; "N"])
  ∧ ∃ r, detectCycles mn_graph = Some r
         ∧ (r = None ↔ acyclic mn_graph)
         ∧ ∀ l, r = Some l →
             NoDup l ∧ ∀ n, n ∈ l ↔ n ∈ map_keys mn_graph ∧ ¬ kahn_removed mn_graph n.
Proof.
  assert (Hwf : wf_graph mn_graph) by compute_decision.
  split_and!; [done | vm_compute; reflexivity | exact (detectCycles_kahn mn_graph Hwf)].
Defined.

(** C3, as stated, fails: an agent that names itself in [waits_for] gets a
    self-dependency edge. *)
Lemma buildDependencyGraph_self_edge :
  wf_def self_def
  ∧ buildDependencyGraph self_def = Ok [("A", ["A"])]
  ∧ edge [("A", ["A"])] "A" "A".
Proof.
  split_and!; [compute_decision | reflexivity |].
  exists ["A"]. split; [reflexivity | left].
Qed.

(** C3, amended: for every swarm definition, the graph
    [buildDependencyGraph] returns has every agent name as a key exactly
    once, and the dependency set of an agent holds the agent's own name
    exactly when the agent lists its own name in its [waits_for] or
    [reports_to]. *)
Theorem buildDependencyGraph_keys d :
  wf_def d →
  ∃ g, buildDependencyGraph d = Ok g
       ∧ map_keys g = map_keys (def_agents d)
       ∧ NoDup (map_keys g)
       ∧ ∀ n, edge g n n ↔
           ∃ a, (n, a) ∈ def_agents d ∧ (n ∈ waitsFor a ∨ n ∈ reportsTo a).
Proof.
  intros Hwf.
  destruct (buildDependencyGraph_spec d Hwf) as (g & Hg & Hkeys & _ & Hedges).
  exists g. split_and!; [done|done|rewrite Hkeys; apply Hwf|].
  assert (Hdecl : ∀ n, declared_edge d n n ↔
            ∃ a, (n, a) ∈ def_agents d ∧ (n ∈ waitsFor a ∨ n ∈ reportsTo a)).
  { intros n. unfold declared_edge. split; [naive_solver|].
    intros (a & Hin & Hself).
    assert (n ∈ map_keys (def_agents d)).
    { apply list_elem_of_fmap. by exists (n, a). }
    naive_solver. }
  intros n. destruct Hedges as [[Happ Hchain]|[_ Hdeclared]].
  - rewrite Hchain, <- Hdecl. split.
    + intros He. by apply (chain_edge_known d n n Hwf) in He as (_ & _ & ?).
    + intros He. destruct Happ as [_ Hnone]. destruct (Hnone n n He).
  - by rewrite Hdeclared.
Qed.

Lemma buildDependencyGraph_keys_witness :
  wf_def abc_def
  ∧ ∃ g, buildDependencyGraph abc_def = Ok g
         ∧ map_keys g = map_keys (def_agents abc_def)
         ∧ NoDup (map_keys g)
         ∧ ∀ n, edge g n n ↔
             ∃ a, (n, a) ∈ def_agents abc_def ∧ (n ∈ waitsFor a ∨ n ∈ reportsTo a).
Proof.
  assert (Hwf : wf_def abc_def) by compute_decision.
  split; [done | exact (buildDependencyGraph_keys abc_def Hwf)].
Defined.

(** C4: for every swarm definition, [buildDependencyGraph] synthesizes the
    chain (each agent depends on the one declared just before it) exactly
    when no explicit or inverse edge is declared and the mode is
    [pipeline] or [sequential]: then the edges of the result are those of
    the chain, and otherwise the result is the graph of the declared
    edges, the one [hasExplicitDeps] is asked about. *)
Theorem buildDependencyGraph_chain d :
  wf_def d →
  ∃ declared g,
    declared_graph d = Ok declared
    ∧ (∀ n m, edge declared n m ↔ declared_edge d n m)
    ∧ (hasExplicitDeps declared = false ↔ ∀ n m, ¬ declared_edge d n m)
    ∧ buildDependencyGraph d = Ok g
    ∧ (chain_applies d → ∀ n m, edge g n m ↔ chain_edge d n m)
    ∧ (¬ chain_applies d → g = declared).
Proof.
  intros Hwf.
  destruct (declared_graph_spec d Hwf) as (g0 & Hg0 & Hkeys0 & _ & Hedges0).
  destruct (buildDependencyGraph_spec d Hwf) as (g & Hg & _ & _ & Hedges).
  exists g0, g. split_and!; [done|done| |done| |].
  - rewrite hasExplicitDeps_false by (rewrite Hkeys0; apply Hwf).
    by setoid_rewrite Hedges0.
  - intros Happ. by destruct Hedges as [[_ ?]|[? _]].
  - intros Hnot. unfold buildDependencyGraph in Hg. rewrite Hg0 in Hg. simpl in Hg.
    destruct (chained_mode (def_mode d) && negb (hasExplicitDeps g0)) eqn:Hgate.
    + destruct Hnot. apply andb_true_iff in Hgate as [Hmode Hnone].
      split; [by apply chained_mode_true|].
      apply negb_true_iff in Hnone.
      rewrite hasExplicitDeps_false in Hnone by (rewrite Hkeys0; apply Hwf).
      intros n m. rewrite <- Hedges0. apply Hnone.
    + by injection Hg.
Qed.

Lemma buildDependencyGraph_chain_witness :
  wf_def pqr_def ∧ chain_applies pqr_def
  ∧ buildDependencyGraph pqr_def = Ok [("P", []); ("Q", ["P"]); ("R", ["Q"])]
  ∧ buildExecutionWaves [("P", []); ("Q", ["P"]); ("R", ["Q"])]
    = Some (Ok [["P"]; ["Q"]; ["R"]])
  ∧ ∃ g, buildDependencyGraph pqr_def = Ok g
         ∧ ∀ n m, edge g n m ↔ chain_edge pqr_def n m.
Proof.
  assert (Hwf : wf_def pqr_def) by compute_decision.
  destruct (buildDependencyGraph_chain pqr_def Hwf)
    as (declared & g & Hdeclared & _ & Hnone & Hg & Hchain & _).
  assert (Happ : chain_applies pqr_def).
  { split; [by right|]. apply Hnone.
    assert (Hrun : declared_graph pqr_def = Ok [("P", []); ("Q", []); ("R", [])])
      by reflexivity.
    rewrite Hrun in Hdeclared. injection Hdeclared as <-. reflexivity. }
  split_and!; [done | done | reflexivity | vm_compute; reflexivity |].
  exists g. split; [done | by apply Hchain].
Defined.

(** C5: [buildExecutionWaves] throws exactly when a pass over the
    remaining nodes schedules no node although nodes remain, and what it
    throws is then the deadlock error; for an acyclic dependency graph (a
    map from each agent name to a set of agent names of the graph) it does
    not throw. *)
Theorem buildExecutionWaves_deadlock g :
  (∀ e, buildExecutionWaves g = Some (Throw e) ↔
        ∃ st, reachable g st ∧ remaining st ≠ []
              ∧ scan g (completed st) (remaining st) = Ok []
              ∧ e = Error (deadlock_message (remaining st)))
  ∧ (wf_graph g → acyclic g → ∃ ws, buildExecutionWaves g = Some (Ok ws)).
Proof.
  split.
  - intros e. split.
    + apply waves_loop_throws. constructor.
    + intros (st & Hreach & Hne & Hscan & ->).
      destruct (reachable_loop g st Hreach) as (fuel & Hlen & ->).
      destruct fuel as [|fuel]; [destruct (remaining_fuel st Hne Hlen)|].
      by rewrite waves_loop_pass, Hscan.
  - intros Hwf Hacyc.
    destruct (waves_loop_acyclic g (length g) Hwf Hacyc (initial_sched g))
      as (st & Hloop & _).
    + apply sched_inv_initial.
    + apply initial_remaining_length.
    + eauto.
Qed.

Lemma buildExecutionWaves_deadlock_witness :
  wf_graph abc_graph ∧ acyclic abc_graph
  ∧ ∃ ws, buildExecutionWaves abc_graph = Some (Ok ws).
Proof.
  assert (Hwf : wf_graph abc_graph) by compute_decision.
  assert (Hacyc : acyclic abc_graph) by (apply acyclicb_true; [done | vm_compute; reflexivity]).
  split_and!; [done | done |].
  exact (proj2 (buildExecutionWaves_deadlock abc_graph) Hwf Hacyc).
Defined.




(** C7: for an agent the tracker holds a state of, [executeSwarmAgent]
    returns what the external executor returned and re-raises what it
    threw. When it returned, the agent is
    [completed] for exit code zero and [failed] otherwise, with the
    result's error text; when it threw, the agent is [failed] with the
    message of the exception, for an [Error], and with the string
    rendering of the thrown value otherwise. In both cases the completion
    time is recorded, the state is persisted and a line is appended to the
    agent's log. *)
Theorem executeSwarmAgent_outcome runSubprocess agent index options t w :
  is_Some (ss_agents (state t) !! agent_name agent) →
  ∃ args w1 outcome w2,
    runSubprocess args w1 = (outcome, w2)
    ∧ sp_task args = agent_task agent
    ∧ ∃ t' w' a lines stamp,
        executeSwarmAgent runSubprocess agent index options t w = (outcome, t', w')
        ∧ ss_agents (state t') !! agent_name agent = Some a
        ∧ as_completedAt a = Some (clock w2 (ticks w2))
        ∧ files w' !! statePath t' = Some (state_to_json (state t'))
        ∧ match outcome with
          | Ok result =>
              as_status a
              = (if decide (exitCode result = 0%Z) then agent_completed else agent_failed)
              ∧ as_error a = error result
              ∧ logs w' !! path_join [swarmDir t'; "logs"; agent_name agent +:+ ".log"]
                = Some (lines ++
                    [(stamp,
                      "Iteration " +:+ pretty (opt_iteration options) +:+ " "
                      +:+ (if decide (exitCode result = 0%Z) then "completed" else "failed")
                      +:+ match error result with
                          | Some text =>
                              if decide (text = EmptyString) then EmptyString
                              else ": " +:+ text
                          | None => EmptyString
                          end)])
          | Throw err =>
              as_status a = agent_failed
              ∧ as_error a
                = Some match err with
                       | Error message | TypeError message => message
                       | Thrown rendering => rendering
                       end
              ∧ logs w' !! path_join [swarmDir t'; "logs"; agent_name agent +:+ ".log"]
                = Some (lines ++
                    [(stamp,
                      "Iteration " +:+ pretty (opt_iteration options) +:+ " error: "
                      +:+ match err with
                          | Error message | TypeError message => message
                          | Thrown rendering => rendering
                          end)])
          end.
Proof.
  intros [a0 Ha0]. unfold executeSwarmAgent.
  cbv beta iota zeta delta [date_now]. rewrite (updateAgent_tracked _ _ _ _ _ Ha0).
  set (t1 := set_state t _).
  assert (Ha1 : is_Some (ss_agents (state t1) !! agent_name agent)).
  { unfold t1. simpl. rewrite lookup_insert_eq. eauto. }
  destruct Ha1 as [a1 Ha1].
  match goal with
  | |- context [runSubprocess ?args ?w1] =>
      exists args, w1; destruct (runSubprocess args w1) as [outcome w2] eqn:Hcall
  end.
  exists outcome, w2. split; [done|]. split; [done|].
  destruct outcome as [result|err];
    rewrite (updateAgent_tracked _ _ _ _ _ Ha1);
    (eexists _, _, _, _, _; split; [reflexivity|]);
    (split; [simpl; apply lookup_insert_eq|]);
    (split; [reflexivity|]);
    (split; [simpl; apply lookup_insert_eq|]);
    (split; [reflexivity|]);
    (split; [by destruct err || reflexivity|]);
    simpl; rewrite lookup_insert_eq;
    [by destruct (decide (exitCode result = 0%Z)) | by destruct err].
Qed.

(** The executor that throws [Error "spawn failed"]: the agent ends
    [failed] with that text, which is also in the last line of its log,
    and the error is raised again. *)
Lemma executeSwarmAgent_outcome_witness :
  is_Some (ss_agents (state tracked_run.1) !! agent_name agent_a)
  ∧ ∃ t' w' a lines stamp,
      executeSwarmAgent throwing_executor agent_a 0%Z run_options
        tracked_run.1 tracked_run.2 = (Throw (Error "spawn failed"), t', w')
      ∧ ss_agents (state t') !! "a" = Some a
      ∧ as_status a = agent_failed
      ∧ as_error a = Some "spawn failed"
      ∧ files w' !! statePath t' = Some (state_to_json (state t'))
      ∧ logs w' !! "/work/.swarm_run/logs/a.log"
        = Some (lines ++ [(stamp, "Iteration 1 error: spawn failed")]).
Proof.
  assert (Htracked : is_Some (ss_agents (state tracked_run.1) !! agent_name agent_a))
    by compute_decision.
  split; [done|].
  destruct (executeSwarmAgent_outcome throwing_executor agent_a 0%Z
              run_options tracked_run.1 tracked_run.2 Htracked)
    as (args & w1 & outcome & w2 & Hcall & _ & t' & w' & a & lines & stamp
        & Hrun & Ha & _ & Hfile & Hout).
  unfold throwing_executor in Hcall. injection Hcall as <- <-.
  destruct Hout as (Hstatus & Herror & Hlog).
  exists t', w', a, lines, stamp. split_and!; [done..|].
  assert (Hdir : swarmDir t' = "/work/.swarm_run").
  { apply (f_equal (λ r, swarmDir r.1.2)) in Hrun. by vm_compute in Hrun. }
  rewrite Hdir in Hlog. exact Hlog.
Defined.

(** C8: for every swarm definition, [buildDependencyGraph] returns a
    graph; a name of an agent's [waits_for] gives an edge when it is a
    known agent, and no edge of the graph leads to a name that is not a
    known agent. *)
Theorem buildDependencyGraph_lenient d :
  wf_def d →
  ∃ g, buildDependencyGraph d = Ok g
       ∧ (∀ n a m, (n, a) ∈ def_agents d → m ∈ waitsFor a →
                   m ∈ map_keys (def_agents d) → edge g n m)
       ∧ (∀ n m, m ∉ map_keys (def_agents d) → ¬ edge g n m).
Proof.
  intros Hwf.
  destruct (buildDependencyGraph_spec d Hwf) as (g & Hg & Hkeys & _ & Hedges).
  exists g. split_and!; [done| |].
  - intros n a m Hin Hm HmK.
    assert (Hdecl : declared_edge d n m).
    { split_and!; [|done|eauto]. apply list_elem_of_fmap. by exists (n, a). }
    destruct Hedges as [[[_ Hnone] _]|[_ Hdeclared]].
    + destruct (Hnone n m Hdecl).
    + by apply Hdeclared.
  - intros n m Hout He. apply Hout.
    destruct Hedges as [[_ Hchain]|[_ Hdeclared]].
    + apply Hchain in He. by apply (chain_edge_known d n m Hwf) in He as (_ & ? & _).
    + apply Hdeclared in He. by destruct He as (_ & ? & _).
Qed.

Lemma buildDependencyGraph_lenient_witness :
  wf_def ghost_def
  ∧ buildDependencyGraph ghost_def = Ok [("A", []); ("B", ["A"])]
  ∧ ∃ g, buildDependencyGraph ghost_def = Ok g
         ∧ (∀ n a m, (n, a) ∈ def_agents ghost_def → m ∈ waitsFor a →
                     m ∈ map_keys (def_agents ghost_def) → edge g n m)
         ∧ (∀ n m, m ∉ map_keys (def_agents ghost_def) → ¬ edge g n m).
Proof.
  assert (Hwf : wf_def ghost_def) by compute_decision.
  split_and!; [done | reflexivity | exact (buildDependencyGraph_lenient ghost_def Hwf)].
Defined.

(** C9: when [B], an agent of the definition, is in the [reports_to] of
    the agent [A], the graph [buildDependencyGraph] returns has [A] in the
    dependency set of [B]. *)
Theorem buildDependencyGraph_reports_to d A a B :
  wf_def d →
  (A, a) ∈ def_agents d → B ∈ reportsTo a → B ∈ map_keys (def_agents d) →
  ∃ g, buildDependencyGraph d = Ok g ∧ edge g B A.
Proof.
  intros Hwf Hin HB HBK.
  destruct (buildDependencyGraph_spec d Hwf) as (g & Hg & Hkeys & _ & Hedges).
  exists g. split; [done|].
  assert (Hdecl : declared_edge d B A).
  { split_and!; [done| |eauto]. apply list_elem_of_fmap. by exists (A, a). }
  destruct Hedges as [[[_ Hnone] _]|[_ Hdeclared]].
  - destruct (Hnone B A Hdecl).
  - by apply Hdeclared.
Qed.

Lemma buildDependencyGraph_reports_to_witness :
  wf_def xy_def
  ∧ buildDependencyGraph xy_def = Ok [("X", []); ("Y", ["X"])]
  ∧ buildExecutionWaves [("X", []); ("Y", ["X"])] = Some (Ok [["X"]; ["Y"]])
  ∧ ∃ g, buildDependencyGraph xy_def = Ok g ∧ edge g "Y" "X".
Proof.
  assert (Hwf : wf_def xy_def) by compute_decision.
  split_and!; [done | reflexivity | vm_compute; reflexivity |].
  apply (buildDependencyGraph_reports_to xy_def "X" (mk_agent "X" [] ["Y"]) "Y" Hwf).
  - left.
  - left.
  - compute_decision.
Defined.

(** C10: [buildExecutionWaves] terminates on every graph, cyclic or not:
    it returns the waves or throws the deadlock error, and each pass of
    its loop either schedules nothing, which is when it throws, or leaves
    strictly fewer remaining nodes. *)
Theorem buildExecutionWaves_terminates g :
  (∃ r, buildExecutionWaves g = Some r
        ∧ ((∃ ws, r = Ok ws) ∨ ∃ rem, r = Throw (Error (deadlock_message rem))))
  ∧ (∀ st, reachable g st → remaining st ≠ [] →
       ∃ wave, scan g (completed st) (remaining st) = Ok wave
               ∧ (wave = []
                  ∨ length (remaining (settle st (sort_wave wave)))
                    < length (remaining st))).
Proof.
  split.
  - apply waves_loop_total.
    + intros n. apply initial_remaining.
    + apply initial_remaining_length.
  - intros st Hreach Hne. eexists. split.
    + apply scan_spec. intros n. apply sched_inv_known. by apply reachable_inv.
    + destruct (filter _ (remaining st)) as [|x wave] eqn:Hwave; [by left|right].
      apply filter_head_elem in Hwave as [Hx _].
      apply (settle_decreases st (x :: wave) x); [left | done].
Qed.

Lemma buildExecutionWaves_terminates_witness :
  buildExecutionWaves mn_graph
  = Some (Throw (Error (deadlock_message ["M"; "N"])))
  ∧ ∃ wave, scan mn_graph (completed (initial_sched mn_graph))
                 (remaining (initial_sched mn_graph)) = Ok wave
            ∧ (wave = []
               ∨ length (remaining (settle (initial_sched mn_graph) (sort_wave wave)))
                 < length (remaining (initial_sched mn_graph))).
Proof.
  split; [vm_compute; reflexivity|].
  apply (proj2 (buildExecutionWaves_terminates mn_graph) (initial_sched mn_graph)).
  - constructor.
  - vm_compute. discriminate.
Defined.


(* ===================================================================== *)
(** ** The levels of the scheduler *)
(* ===================================================================== *)

#[global] Instance string_le_total : Total string_le.
Proof. intros x y. unfold string_le. apply String.leb_total. Qed.

Lemma sort_wave_sorted w : Sorted string_le (sort_wave w).
Proof. apply Sorted_merge_sort. apply _. Qed.

Lemma sched_level_initial g : sched_level g (initial_sched g).
Proof.
  split; simpl.
  - symmetry. induction (set_of_list (map_keys g)) as [|x l IH]; [done|].
    rewrite filter_cons_True by apply not_elem_of_nil. by f_equal.
  - constructor.
  - intros k w Hk. done.
Qed.

Lemma sched_level_pass g st wave :
  sched_inv g st → sched_level g st →
  scan g (completed st) (remaining st) = Ok wave → wave ≠ [] →
  sched_level g (settle st (sort_wave wave)).
Proof.
  intros Hinv [Hrem Hsorted Hlevel] Hscan Hwave.
  pose proof (sched_inv_pass g st wave Hinv Hscan Hwave) as Hinv'.
  destruct Hinv as [Hc Hndc Hndr Hcover Hdisj Hne Horder].
  rewrite scan_spec in Hscan by (intros n Hn; apply Hcover; by right).
  injection Hscan as Hscan.
  assert (Hin : ∀ n, n ∈ sort_wave wave ↔ n ∈ remaining st ∧ ready g (completed st) n).
  { intros n. rewrite sort_wave_elem, <- Hscan, list_elem_of_filter, readyb_true.
    naive_solver. }
  assert (Hcw : NoDup (completed st ++ sort_wave wave)).
  { apply NoDup_app. split_and!; [done| |].
    - intros n Hn Hw. apply Hin in Hw as [Hr _]. by apply (Hdisj n).
    - rewrite sort_wave_perm, <- Hscan. by apply NoDup_filter. }
  split; unfold settle; simpl.
  - rewrite settle_remaining, settle_completed, Hrem by done.
    rewrite list_filter_filter. apply list_filter_iff. intros x.
    rewrite elem_of_app. naive_solver.
  - apply Forall_app. split; [done|]. apply Forall_singleton, sort_wave_sorted.
  - intros k w Hk n.
    destruct (decide (k < length (waves st))) as [Hlt|Hge].
    + rewrite lookup_app_l in Hk by done.
      rewrite take_app_le by lia. by apply Hlevel.
    + rewrite lookup_app_r in Hk by lia.
      apply list_lookup_singleton_Some in Hk as [Hk <-].
      assert (k = length (waves st)) as -> by lia.
      rewrite take_app_length, <- Hc, Hin.
      split.
      * intros [Hr Hready]. split_and!; [|by intros ?%Hdisj|done].
        apply Hcover. by right.
      * intros (HK & Hout & Hready). split; [|done].
        apply Hcover in HK as [?|?]; done.
Qed.

Lemma reachable_level g st : reachable g st → sched_level g st.
Proof.
  induction 1 as [|st wave Hreach IH _ Hscan Hwave].
  - apply sched_level_initial.
  - apply sched_level_pass; [by apply reachable_inv|done..].
Qed.

(** The waves the loop returns are those of a reachable final state. *)
Lemma waves_loop_returns g fuel :
  ∀ st ws,
    reachable g st → waves_loop fuel g st = Some (Ok ws) →
    ∃ st', reachable g st' ∧ remaining st' = [] ∧ waves st' = ws.
Proof.
  induction fuel as [|fuel IH]; intros st ws Hreach;
    (destruct (decide (remaining st = [])) as [Hr|Hr];
     [rewrite waves_loop_done by done; intros [= <-]; eauto|]).
  - simpl. by destruct (remaining st).
  - rewrite waves_loop_pass by done.
    pose proof (scan_spec g (completed st) (remaining st)
                  (λ n, sched_inv_known g st n (reachable_inv g st Hreach))) as Hscan.
    destruct (filter _ (remaining st)) as [|z wave] eqn:Hwave; rewrite Hscan; [done|].
    apply IH. by apply reach_pass.
Qed.

Lemma buildExecutionWaves_returns g ws :
  buildExecutionWaves g = Some (Ok ws) →
  ∃ st, reachable g st ∧ remaining st = [] ∧ waves st = ws.
Proof. apply waves_loop_returns. constructor. Qed.

(** Along a path of edges the index of the wave decreases. *)
Lemma wave_path g st a b :
  sched_inv g st → tc (edge g) a b →
  ∀ k w, waves st !! k = Some w → a ∈ w →
    ∃ j w', j < k ∧ waves st !! j = Some w' ∧ b ∈ w'.
Proof.
  intros Hinv Htc. induction Htc as [a b Hab|a c b Hac _ IH]; intros k w Hk Ha.
  - by apply (si_order g st Hinv k w a b).
  - destruct (si_order g st Hinv k w a c Hk Ha Hac) as (j & w' & Hj & Hw' & Hc).
    destruct (IH j w' Hw' Hc) as (i & w'' & Hi & Hw'' & Hb).
    exists i, w''. split; [lia|done].
Qed.

Lemma completed_wave g st n :
  sched_inv g st → n ∈ completed st → ∃ k w, waves st !! k = Some w ∧ n ∈ w.
Proof.
  intros Hinv Hn. rewrite (si_completed g st Hinv) in Hn.
  apply list_elem_of_In, in_concat in Hn as (w & Hw & Hn).
  apply list_elem_of_In, list_elem_of_lookup in Hw as [k Hk].
  exists k, w. split; [done|]. by apply list_elem_of_In.
Qed.

(** A graph the scheduler gets through is acyclic, and its dependency
    sets name keys of the graph. *)
Lemma scheduled_acyclic g st :
  sched_inv g st → remaining st = [] → acyclic g.
Proof.
  intros Hinv Hrem n Htc.
  assert (Hn : n ∈ completed st).
  { assert (HK : n ∈ map_keys g).
    { inversion Htc as [? ? He|? ? ? He]; by eapply edge_source. }
    apply (si_cover g st Hinv) in HK as [?|Hr]; [done|].
    rewrite Hrem in Hr. by apply elem_of_nil in Hr. }
  destruct (completed_wave g st n Hinv Hn) as (k & w & Hk & Hw).
  destruct (wave_path g st n n Hinv Htc k w Hk Hw) as (j & w' & Hj & Hw' & Hn').
  assert (j = k); [|lia].
  eapply (concat_NoDup_disjoint (waves st)); [|done..].
  rewrite <- (si_completed g st Hinv). apply Hinv.
Qed.

Lemma scheduled_closed g st :
  NoDup (map_keys g) → sched_inv g st → remaining st = [] → closed_graph g.
Proof.
  intros Hnd Hinv Hrem. apply closed_graph_intro; [done|]. intros n m He.
  assert (Hn : n ∈ completed st).
  { pose proof (edge_source g n m He) as HK.
    apply (si_cover g st Hinv) in HK as [?|Hr]; [done|].
    rewrite Hrem in Hr. by apply elem_of_nil in Hr. }
  destruct (completed_wave g st n Hinv Hn) as (k & w & Hk & Hw).
  destruct (si_order g st Hinv k w n m Hk Hw He) as (j & w' & _ & Hw' & Hm).
  apply (si_cover g st Hinv). left. rewrite (si_completed g st Hinv).
  apply list_elem_of_In, in_concat. exists w'.
  split; apply list_elem_of_In; [by eapply list_elem_of_lookup_2 | done].
Qed.

(** What the scheduler has completed, Kahn's algorithm removes. *)
Lemma completed_removed g st :
  sched_inv g st → ∀ n, n ∈ completed st → kahn_removed g n.
Proof.
  intros Hinv.
  cut (∀ k w n, waves st !! k = Some w → n ∈ w → kahn_removed g n).
  { intros H n Hn. destruct (completed_wave g st n Hinv Hn) as (k & w & Hk & Hw). eauto. }
  intros k. induction (lt_wf k) as [k _ IH]. intros w n Hk Hn.
  assert (HK : n ∈ map_keys g).
  { apply (si_cover g st Hinv). left. rewrite (si_completed g st Hinv).
    apply list_elem_of_In, in_concat. exists w.
    split; apply list_elem_of_In; [by eapply list_elem_of_lookup_2 | done]. }
  apply map_get_is_Some in HK as [s Hs].
  apply (kahn_remove g n s Hs). intros d Hd.
  destruct (si_order g st Hinv k w n d Hk Hn) as (j & w' & Hj & Hw' & Hd'); [by exists s|].
  eauto.
Qed.

(** When a pass schedules nothing, all that Kahn's algorithm removes is
    completed. *)
Lemma stuck_removed g st :
  sched_inv g st → scan g (completed st) (remaining st) = Ok [] →
  ∀ n, kahn_removed g n → n ∈ completed st.
Proof.
  intros Hinv Hscan n Hrem.
  rewrite scan_spec in Hscan by (intros x; by apply sched_inv_known).
  injection Hscan as Hscan.
  induction Hrem as [n s Hs _ IH].
  assert (HK : n ∈ map_keys g) by (apply map_get_is_Some; eauto).
  apply (si_cover g st Hinv) in HK as [?|Hr]; [done|]. exfalso.
  apply (filter_nil_not_elem_of _ _ n Hscan); [|done].
  apply readyb_true. intros d (s' & Hs' & Hd). simplify_eq. auto.
Qed.

(** The final state behind the waves of an acyclic dependency graph. *)
Lemma acyclic_final_state g :
  wf_graph g → acyclic g →
  ∃ st, buildExecutionWaves g = Some (Ok (waves st))
        ∧ reachable g st ∧ remaining st = [].
Proof.
  intros Hwf Hacyc.
  destruct (waves_loop_acyclic g (length g) Hwf Hacyc (initial_sched g))
    as (st0 & Hloop & _).
  { apply sched_inv_initial. }
  { apply initial_remaining_length. }
  destruct (buildExecutionWaves_returns g _ Hloop) as (st & Hreach & Hrem & Hws).
  exists st. rewrite Hws. done.
Qed.

Lemma string_compare_le_trans a :
  ∀ b c, String.compare a b ≠ Gt → String.compare b c ≠ Gt → String.compare a c ≠ Gt.
Proof.
  induction a as [|x a IH]; intros [|y b] [|z c]; simpl; try done.
  destruct (Ascii.compare x y) eqn:Hxy; [| |done];
    destruct (Ascii.compare y z) eqn:Hyz; try done.
  - apply Ascii.compare_eq_iff in Hxy as ->. rewrite Hyz. apply IH.
  - apply Ascii.compare_eq_iff in Hxy as ->. by rewrite Hyz.
  - apply Ascii.compare_eq_iff in Hyz as <-. by rewrite Hxy.
  - intros _ _. unfold Ascii.compare in *.
    apply N.compare_lt_iff in Hxy. apply N.compare_lt_iff in Hyz.
    assert (Hxz : (Ascii.N_of_ascii x < Ascii.N_of_ascii z)%N)
      by (by eapply N.lt_trans).
    apply N.compare_lt_iff in Hxz. by rewrite Hxz.
Qed.

#[global] Instance string_le_trans : Transitive string_le.
Proof.
  intros a b c. unfold string_le, String.leb. intros Hab Hbc.
  pose proof (string_compare_le_trans a b c) as Htrans.
  destruct (String.compare a b); [| |done];
    destruct (String.compare b c); try done;
    destruct (String.compare a c); try done; by destruct Htrans.
Qed.

#[global] Instance string_le_antisym : AntiSymm (=) string_le.
Proof. intros a b. apply String.leb_antisym. Qed.

(** The comparison of the model is the order of the code units. *)
Lemma string_le_units a b : string_le a b ↔ name_le a b.
Proof.
  unfold string_le, name_le, String.leb, char_codes. revert b.
  induction a as [|x a IH]; intros [|y b]; simpl; [done..|].
  specialize (IH b). unfold Ascii.compare.
  destruct (N.compare_spec (Ascii.N_of_ascii x) (Ascii.N_of_ascii y)) as [Heq|Hlt|Hgt].
  - rewrite IH. split; [by right|]. intros [Hlt|[_ Hle]]; [lia|done].
  - split; [by left|done].
  - split; [done|]. intros [Hlt|[Heq _]]; lia.
Qed.

Lemma Sorted_weaken {A} (R R' : relation A) l :
  (∀ x y, R x y → R' x y) → Sorted R l → Sorted R' l.
Proof.
  intros Himpl. induction 1 as [|x l _ IH Hhd]; constructor; [done|].
  destruct Hhd; constructor. by apply Himpl.
Qed.

Lemma sort_wave_ordered w : Sorted name_le (sort_wave w).
Proof.
  apply (Sorted_weaken string_le); [|apply sort_wave_sorted].
  intros x y. apply string_le_units.
Qed.

Lemma wave_in_prefix (ws : list (list string)) j k w n :
  ws !! j = Some w → j < k → n ∈ w → n ∈ concat (take k ws).
Proof.
  intros Hj Hlt Hn. apply list_elem_of_In, in_concat. exists w.
  split; apply list_elem_of_In; [|done].
  apply (list_elem_of_lookup_2 _ j). rewrite lookup_take_lt; done.
Qed.

Lemma wave_in_concat (ws : list (list string)) k w n :
  ws !! k = Some w → n ∈ w → n ∈ concat ws.
Proof.
  intros Hk Hn. apply list_elem_of_In, in_concat. exists w.
  split; apply list_elem_of_In; [by eapply list_elem_of_lookup_2 | done].
Qed.

Lemma concat_elem_wave (ws : list (list string)) n :
  n ∈ concat ws → ∃ k w, ws !! k = Some w ∧ n ∈ w.
Proof.
  intros Hn. apply list_elem_of_In, in_concat in Hn as (w & Hw & Hn).
  apply list_elem_of_In, list_elem_of_lookup in Hw as [k Hk].
  exists k, w. split; [done|]. by apply list_elem_of_In.
Qed.

Lemma wave_NoDup (ws : list (list string)) k w :
  NoDup (concat ws) → ws !! k = Some w → NoDup w.
Proof.
  intros Hnd Hk. rewrite <- (take_drop_middle ws k w Hk) in Hnd.
  rewrite concat_app in Hnd. simpl in Hnd.
  apply NoDup_app in Hnd as (_ & _ & Hnd). by apply NoDup_app in Hnd as (? & _).
Qed.

(** Two lists of waves of the same specification agree wave by wave. *)
Lemma level_waves_step g1 g2 ws1 ws2 k w1 :
  (∀ n, n ∈ map_keys g1 ↔ n ∈ map_keys g2) →
  (∀ n d, edge g1 n d ↔ edge g2 n d) →
  level_waves g1 ws1 → level_waves g2 ws2 →
  take k ws1 = take k ws2 → ws1 !! k = Some w1 → ws2 !! k = Some w1.
Proof.
  intros Hkeys Hedges (Hne1 & Hs1 & Hnd1 & Hall1 & Hlev1) (Hne2 & Hs2 & Hnd2 & Hall2 & Hlev2)
    Htake Hk1.
  assert (Hw1 : w1 ≠ []).
  { rewrite Forall_forall in Hne1. apply Hne1. by eapply list_elem_of_lookup_2. }
  destruct w1 as [|n w1']; [done|]. set (w1 := n :: w1') in *.
  assert (Hn : n ∈ w1) by left.
  apply (Hlev1 k w1 Hk1) in Hn as (HnK & Hnout & Hnready).
  destruct (concat_elem_wave ws2 n) as (j & w & Hj & Hnw).
  { apply Hall2. by apply Hkeys. }
  destruct (decide (j < k)) as [Hlt|Hge].
  { destruct Hnout. rewrite Htake. by apply (wave_in_prefix ws2 j k w). }
  destruct (lookup_lt_is_Some_2 ws2 k) as [w2 Hk2].
  { apply lookup_lt_Some in Hj. lia. }
  rewrite Hk2. f_equal. apply (Sorted_unique string_le).
  - rewrite Forall_forall in Hs2. apply Hs2. by eapply list_elem_of_lookup_2.
  - rewrite Forall_forall in Hs1. apply Hs1. by eapply list_elem_of_lookup_2.
  - apply NoDup_Permutation;
      [by apply (wave_NoDup ws2 k) | by apply (wave_NoDup ws1 k) |].
    intros x. rewrite (Hlev2 k w2 Hk2 x), (Hlev1 k w1 Hk1 x), Htake, Hkeys.
    unfold ready. by setoid_rewrite Hedges.
Qed.

Lemma level_waves_unique g1 g2 ws1 ws2 :
  (∀ n, n ∈ map_keys g1 ↔ n ∈ map_keys g2) →
  (∀ n d, edge g1 n d ↔ edge g2 n d) →
  level_waves g1 ws1 → level_waves g2 ws2 → ws1 = ws2.
Proof.
  intros Hkeys Hedges H1 H2.
  assert (Htake : ∀ k, take k ws1 = take k ws2).
  { induction k as [|k IH]; [done|].
    destruct (ws1 !! k) as [w1|] eqn:Hk1.
    - pose proof (level_waves_step g1 g2 ws1 ws2 k w1 Hkeys Hedges H1 H2 IH Hk1) as Hk2.
      by rewrite (take_S_r _ _ _ Hk1), (take_S_r _ _ _ Hk2), IH.
    - destruct (ws2 !! k) as [w2|] eqn:Hk2.
      + assert (Hk1' : ws1 !! k = Some w2).
        { apply (level_waves_step g2 g1 ws2 ws1 k w2); [| |done..].
          - intros n. by rewrite Hkeys.
          - intros n d. by rewrite Hedges. }
        congruence.
      + apply lookup_ge_None in Hk1, Hk2.
        rewrite !take_ge by lia. rewrite !take_ge in IH by lia. done. }
  specialize (Htake (length ws1 + length ws2)).
  rewrite !take_ge in Htake by lia. done.
Qed.

(** The waves of a reachable final state meet the specification. *)
Lemma final_level_waves g st :
  reachable g st → remaining st = [] → level_waves g (waves st).
Proof.
  intros Hreach Hrem.
  pose proof (reachable_inv g st Hreach) as Hinv.
  pose proof (reachable_level g st Hreach) as Hlev.
  split_and!.
  - apply Hinv.
  - apply Hlev.
  - rewrite <- (si_completed g st Hinv). apply Hinv.
  - intros n Hn. rewrite <- (si_completed g st Hinv).
    apply (si_cover g st Hinv) in Hn as [?|Hr]; [done|].
    rewrite Hrem in Hr. by apply elem_of_nil in Hr.
  - apply Hlev.
Qed.

Lemma tc_edge_iff g1 g2 a b :
  (∀ n d, edge g1 n d ↔ edge g2 n d) → tc (edge g1) a b → tc (edge g2) a b.
Proof.
  intros Hedges Htc. induction Htc as [a b Hab|a c b Hac _ IH].
  - apply tc_once. by apply Hedges.
  - eapply tc_l; [by apply Hedges | done].
Qed.

(** A check, entry by entry, that the edges of one graph are edges of another. *)
Lemma edges_included g1 g2 :
  Forall (λ entry, Forall (λ d, edge g2 entry.1 d) entry.2) g1 →
  ∀ n d, edge g1 n d → edge g2 n d.
Proof.
  intros Hall n d (s & Hs & Hd). apply map_get_Some_elem in Hs.
  rewrite Forall_forall in Hall. specialize (Hall _ Hs). simpl in Hall.
  rewrite Forall_forall in Hall. auto.
Qed.

(** For an acyclic dependency graph the scheduler returns the waves of
    the specification. *)
Lemma waves_by_spec g ws :
  wf_graph g → acyclic g → level_waves g ws →
  buildExecutionWaves g = Some (Ok ws).
Proof.
  intros Hwf Hacyc Hspec.
  destruct (acyclic_final_state g Hwf Hacyc) as (st & Hws & Hreach & Hrem).
  rewrite Hws. do 2 f_equal.
  apply (level_waves_unique g g); [done..| |done]. by apply final_level_waves.
Qed.

Lemma concat_singletons (l : list string) : concat ((λ a, [a]) <$> l) = l.
Proof. induction l as [|a l IH]; simpl; [done | by f_equal]. Qed.

Lemma take_singletons (l : list string) k :
  concat (take k ((λ a, [a]) <$> l)) = take k l.
Proof. by rewrite <- fmap_take, concat_singletons. Qed.

(** The waves of a chain: one agent a wave, in the order of the chain. *)
Lemma chain_level_waves g (order : list string) :
  NoDup order → map_keys g = order →
  (∀ n m, edge g n m ↔ ∃ i, order !! S i = Some n ∧ order !! i = Some m) →
  level_waves g ((λ a, [a]) <$> order).
Proof.
  intros Hnd Hkeys Hedges. split_and!.
  - apply Forall_fmap, Forall_true. done.
  - apply Forall_fmap, Forall_true. intros a. simpl. repeat constructor.
  - by rewrite concat_singletons.
  - intros n. by rewrite concat_singletons, Hkeys.
  - intros k w Hk n. rewrite take_singletons, Hkeys.
    rewrite list_lookup_fmap in Hk.
    destruct (order !! k) as [a|] eqn:Ha; [|done]. injection Hk as <-.
    rewrite list_elem_of_singleton. split.
    + intros ->. split_and!.
      * by eapply list_elem_of_lookup_2.
      * intros Hin. apply list_elem_of_lookup in Hin as [j Hj].
        pose proof (lookup_lt_Some _ _ _ Hj) as Hlt. rewrite length_take in Hlt.
        rewrite lookup_take_lt in Hj by lia.
        assert (j = k) by by eapply NoDup_lookup. lia.
      * intros d Hd. apply Hedges in Hd as (i & Hn & Hd).
        assert (S i = k) as <- by by eapply NoDup_lookup.
        apply (list_elem_of_lookup_2 _ i). by rewrite lookup_take_lt by lia.
    + intros (HK & Hout & Hready).
      apply list_elem_of_lookup in HK as [j Hj].
      destruct (decide (j < k)) as [Hlt|Hge].
      { destruct Hout. apply (list_elem_of_lookup_2 _ j). by rewrite lookup_take_lt. }
      destruct (decide (j = k)) as [->|Hne]; [congruence|].
      exfalso. destruct j as [|j]; [lia|].
      destruct (lookup_lt_is_Some_2 order j) as [d Hd].
      { apply lookup_lt_Some in Hj. lia. }
      assert (Hin : d ∈ take k order).
      { apply Hready, Hedges. eauto. }
      apply list_elem_of_lookup in Hin as [i Hi].
      pose proof (lookup_lt_Some _ _ _ Hi) as Hlt. rewrite length_take in Hlt.
      rewrite lookup_take_lt in Hi by lia.
      assert (i = j) by by eapply NoDup_lookup. lia.
Qed.

Lemma chain_acyclic g (order : list string) :
  NoDup order → map_keys g = order →
  (∀ n m, edge g n m ↔ ∃ i, order !! S i = Some n ∧ order !! i = Some m) →
  acyclic g.
Proof.
  intros Hnd Hkeys Hedges. apply topological_keys_acyclic; [by rewrite Hkeys|].
  rewrite Hkeys. intros i n d Hi He. apply Hedges in He as (j & Hn & Hd).
  assert (S j = i) as <- by by eapply NoDup_lookup.
  exists j. split; [lia|done].
Qed.

(** The waves of a graph without edges: all keys in one wave. *)
Lemma flat_level_waves g :
  NoDup (map_keys g) → map_keys g ≠ [] → (∀ n m, ¬ edge g n m) →
  level_waves g [sort_wave (map_keys g)].
Proof.
  intros Hnd Hne Hnone. split_and!.
  - apply Forall_singleton. by apply sort_wave_nonempty.
  - apply Forall_singleton, sort_wave_sorted.
  - simpl. rewrite app_nil_r. by rewrite sort_wave_perm.
  - intros n Hn. simpl. rewrite app_nil_r. by apply sort_wave_elem.
  - intros [|k] w Hk n; [|done]. injection Hk as <-. simpl.
    rewrite sort_wave_elem. split; [|naive_solver].
    intros Hn. split_and!; [done|apply not_elem_of_nil|].
    intros d Hd. destruct (Hnone n d Hd).
Qed.

Lemma flat_acyclic g : (∀ n m, ¬ edge g n m) → acyclic g.
Proof.
  intros Hnone n Htc. inversion Htc as [? ? He|? ? ? He]; by apply Hnone in He.
Qed.

(** A check, by running the builder's first loops, that a definition
    declares no edge. *)
Lemma no_declared_edge_check d :
  wf_def d →
  (g ← declared_graph d; Ok (hasExplicitDeps g)) = Ok false →
  ∀ n m, ¬ declared_edge d n m.
Proof.
  intros Hwf Hrun.
  destruct (declared_graph_spec d Hwf) as (g & Hg & Hkeys & _ & Hedges).
  rewrite Hg in Hrun. simpl in Hrun. injection Hrun as Hrun.
  assert (Hnd : NoDup (map_keys g)) by (rewrite Hkeys; apply Hwf).
  pose proof (proj1 (hasExplicitDeps_false g Hnd) Hrun) as Hnone.
  intros n m He. apply (Hnone n m). by apply Hedges.
Qed.

(* ===================================================================== *)
(** ** More on the cycle detector *)
(* ===================================================================== *)

(** The list the detector returns, from the order its loop computes. *)
Lemma detectCycles_list g l :
  valid_graph g → detectCycles g = Some (Some l) →
  ∃ sorted,
    l = filter (λ k, k ∉ sorted) (map_keys g)
    ∧ length sorted < length g
    ∧ NoDup sorted
    ∧ (∀ n, n ∈ sorted → n ∈ map_keys g)
    ∧ topological g sorted
    ∧ (∀ n s, map_get n g = Some s → n ∈ sorted ↔ ∀ d, d ∈ s → d ∈ sorted).
Proof.
  intros Hvalid Hr. unfold detectCycles in Hr.
  destruct (kahn_sorted_spec g Hvalid) as (sorted & Hs & Hnd & Hknown & Htopo & Hiff).
  rewrite Hs in Hr. simpl in Hr. case_decide; [|done]. injection Hr as <-.
  exists sorted. done.
Qed.

(* ===================================================================== *)
(** ** More on the state tracker *)
(* ===================================================================== *)

Lemma run_op_swarmDir tw op : swarmDir (run_op tw op).1 = swarmDir tw.1.
Proof.
  destruct tw as [t w], op; simpl; try done.
  unfold updateAgent. by destruct (ss_agents (state t) !! name).
Qed.

Lemma run_ops_swarmDir ops tw : swarmDir (run_ops ops tw).1 = swarmDir tw.1.
Proof.
  unfold run_ops. revert tw. induction ops as [|op ops IH]; intros tw; simpl; [done|].
  by rewrite IH, run_op_swarmDir.
Qed.

(** Every call leaves the file of the run equal to the document of the
    state in memory, once it is. *)
Lemma run_op_persisted tw op :
  files tw.2 !! statePath tw.1 = Some (state_to_json (state tw.1)) →
  files (run_op tw op).2 !! statePath (run_op tw op).1
  = Some (state_to_json (state (run_op tw op).1)).
Proof.
  destruct tw as [t w], op; simpl; intros Hfile; try done.
  - apply lookup_insert_eq.
  - unfold updateAgent. destruct (ss_agents (state t) !! name); [|done].
    simpl. apply lookup_insert_eq.
  - apply lookup_insert_eq.
Qed.

(** No agent becomes the prototype of the [agents] object through a call
    that is not an [init] listing [__proto__]. *)
Lemma run_op_own tw op :
  plain_op op → ss_agents_proto (state tw.1) = false →
  ss_agents_proto (state (run_op tw op).1) = false.
Proof.
  destruct tw as [t w], op; simpl; intros Hop Hown; try done.
  - by rewrite seeded_proto.
  - unfold updateAgent. by destruct (ss_agents (state t) !! name).
  - by destruct (p_agents update).
Qed.

Lemma run_ops_own ops tw :
  Forall plain_op ops → ss_agents_proto (state tw.1) = false →
  ss_agents_proto (state (run_ops ops tw).1) = false.
Proof.
  unfold run_ops. revert tw.
  induction ops as [|op ops IH]; intros tw Hops Hown; simpl; [done|].
  apply Forall_cons in Hops as [Hop Hops]. by apply IH, run_op_own.
Qed.

Lemma run_ops_persisted ops tw :
  files tw.2 !! statePath tw.1 = Some (state_to_json (state tw.1)) →
  files (run_ops ops tw).2 !! statePath (run_ops ops tw).1
  = Some (state_to_json (state (run_ops ops tw).1)).
Proof.
  unfold run_ops. revert tw. induction ops as [|op ops IH]; intros tw Hfile; simpl; [done|].
  by apply IH, run_op_persisted.
Qed.

Lemma detectCycles_list_nonempty g l :
  valid_graph g → detectCycles g = Some (Some l) → l ≠ [].
Proof.
  intros Hvalid Hr.
  destruct (detectCycles_list g l Hvalid Hr) as (sorted & -> & Hlen & Hnd & Hknown & _).
  intros Hnil.
  assert (map_keys g ⊆+ sorted) as Hsub.
  { apply NoDup_submseteq; [apply Hvalid|]. intros n Hn.
    destruct (decide (n ∈ sorted)) as [|Hout]; [done|].
    destruct (filter_nil_not_elem_of _ _ n Hnil Hout Hn). }
  apply submseteq_length in Hsub. unfold map_keys in Hsub.
  rewrite length_fmap in Hsub. lia.
Qed.

(** The waves returned for a graph hold its keys, each once. *)
Lemma returned_waves_cover g ws :
  NoDup (map_keys g) → buildExecutionWaves g = Some (Ok ws) →
  concat ws ≡ₚ map_keys g.
Proof.
  intros Hnd Hws.
  destruct (buildExecutionWaves_returns g ws Hws) as (st & Hreach & Hrem & <-).
  pose proof (reachable_inv g st Hreach) as Hinv.
  rewrite <- (si_completed g st Hinv).
  apply NoDup_Permutation; [apply Hinv|done|].
  intros n. rewrite (si_cover g st Hinv), Hrem, elem_of_nil. naive_solver.
Qed.

(** The agents on a cycle are in the list the detector returns. *)
Lemma detectCycles_cycle_listed g l n :
  valid_graph g → detectCycles g = Some (Some l) → tc (edge g) n n → n ∈ l.
Proof.
  intros Hvalid Hr Htc.
  destruct (detectCycles_list g l Hvalid Hr) as (sorted & -> & _ & Hnd & _ & Htopo & _).
  apply list_elem_of_filter. split.
  - intros Hin. apply list_elem_of_lookup in Hin as [i Hi].
    destruct (topological_path g sorted n n Htopo Htc i Hi) as (j & Hj & Hjn).
    assert (i = j) by by eapply NoDup_lookup. lia.
  - inversion Htc as [? ? He|? ? ? He]; by eapply edge_source.
Qed.


(* ===================================================================== *)
(** ** Further properties *)
(* ===================================================================== *)

(** X1: on every graph (each key once, each set element once) the
    scheduler does what the detector says: when [detectCycles] returns
    [null], [buildExecutionWaves] returns waves, and when [detectCycles]
    returns a list, [buildExecutionWaves] throws the deadlock error whose
    message names exactly the agents of that list, in the same order. *)
Theorem scheduler_follows_detector g :
  valid_graph g →
  ∃ r, detectCycles g = Some r
       ∧ match r with
         | None => ∃ ws, buildExecutionWaves g = Some (Ok ws)
         | Some l => buildExecutionWaves g = Some (Throw (Error (deadlock_message l)))
         end.
Proof.
  intros Hvalid. destruct (detectCycles_total g Hvalid) as [r Hr].
  exists r. split; [done|]. destruct r as [l|]; [|by apply detectCycles_gate].
  destruct (waves_loop_total g (length g) (initial_sched g)) as (out & Hout & Hshape).
  { intros n. apply initial_remaining. }
  { apply initial_remaining_length. }
  fold (buildExecutionWaves g) in Hout. rewrite Hout.
  destruct Hshape as [[ws ->]|[rem ->]].
  - exfalso. destruct (buildExecutionWaves_returns g ws Hout) as (st & Hreach & Hrem & _).
    pose proof (reachable_inv g st Hreach) as Hinv.
    assert (Hnull : detectCycles g = Some None).
    { apply detectCycles_null; [done|]. split.
      - by apply (scheduled_acyclic g st).
      - apply (scheduled_closed g st); [apply Hvalid|done..]. }
    congruence.
  - destruct (waves_loop_throws g (length g) (initial_sched g) _ (reach_initial g) Hout)
      as (st & Hreach & Hne & Hscan & He).
    rewrite He. do 4 f_equal.
    pose proof (reachable_inv g st Hreach) as Hinv.
    rewrite (sl_remaining g st (reachable_level g st Hreach)).
    rewrite set_of_list_NoDup by apply Hvalid.
    unfold detectCycles in Hr.
    destruct (kahn_sorted_spec g Hvalid) as (sorted & Hs & Hnd & Hknown & Htopo & Hiff).
    rewrite Hs in Hr. simpl in Hr. case_decide; [|done]. injection Hr as <-.
    apply list_filter_iff. intros k. split; intros Hout' Hin; apply Hout'.
    + apply (stuck_removed g st Hinv Hscan).
      by apply (sorted_removed g sorted Htopo Hknown).
    + apply (removed_sorted g sorted Hiff).
      by apply (completed_removed g st Hinv).
Qed.

Lemma scheduler_follows_detector_witness :
  valid_graph mn_graph
  ∧ ∃ r, detectCycles mn_graph = Some r
         ∧ match r with
           | None => ∃ ws, buildExecutionWaves mn_graph = Some (Ok ws)
           | Some l =>
               buildExecutionWaves mn_graph = Some (Throw (Error (deadlock_message l)))
           end.
Proof.
  assert (Hvalid : valid_graph mn_graph) by compute_decision.
  split; [done | exact (scheduler_follows_detector mn_graph Hvalid)].
Defined.

(** X2: for every acyclic dependency graph whose agent names are ASCII,
    each wave that [buildExecutionWaves] returns is in ascending order of
    the code units of the names. *)
Theorem buildExecutionWaves_sorted g :
  wf_graph g → acyclic g → Forall ascii_name (map_keys g) →
  ∃ ws, buildExecutionWaves g = Some (Ok ws) ∧ Forall (Sorted name_le) ws.
Proof.
  intros Hwf Hacyc _.
  destruct (acyclic_final_state g Hwf Hacyc) as (st & Hws & Hreach & _).
  exists (waves st). split; [done|].
  eapply Forall_impl; [apply (reachable_level g st Hreach)|].
  intros w. apply Sorted_weaken. intros x y. apply string_le_units.
Qed.

Lemma buildExecutionWaves_sorted_witness :
  wf_graph [("b", []); ("c", ["a"]); ("a", []); ("B", [])]
  ∧ acyclic [("b", []); ("c", ["a"]); ("a", []); ("B", [])]
  ∧ Forall ascii_name (map_keys [("b", []); ("c", ["a"]); ("a", []); ("B", [])])
  ∧ buildExecutionWaves [("b", []); ("c", ["a"]); ("a", []); ("B", [])]
    = Some (Ok [["B"; "a"; "b"]; ["c"]])
  ∧ ∃ ws, buildExecutionWaves [("b", []); ("c", ["a"]); ("a", []); ("B", [])]
          = Some (Ok ws)
          ∧ Forall (Sorted name_le) ws.
Proof.
  assert (Hwf : wf_graph [("b", []); ("c", ["a"]); ("a", []); ("B", [])])
    by compute_decision.
  assert (Hacyc : acyclic [("b", []); ("c", ["a"]); ("a", []); ("B", [])])
    by (apply acyclicb_true; [done | vm_compute; reflexivity]).
  assert (Hascii : Forall ascii_name
            (map_keys [("b", []); ("c", ["a"]); ("a", []); ("B", [])]))
    by compute_decision.
  split_and!; [done | done | done | vm_compute; reflexivity
              | exact (buildExecutionWaves_sorted _ Hwf Hacyc Hascii)].
Defined.

(** X3: for every acyclic dependency graph, wave [k] of
    [buildExecutionWaves] holds exactly the agents that are in no earlier
    wave and whose dependencies are all in earlier waves: every agent is
    scheduled in the first wave it can run in. *)
Theorem buildExecutionWaves_levels g :
  wf_graph g → acyclic g →
  ∃ ws, buildExecutionWaves g = Some (Ok ws)
        ∧ ∀ k w, ws !! k = Some w →
            ∀ n, n ∈ w ↔
              n ∈ map_keys g ∧ (n ∉ concat (take k ws))
              ∧ ∀ d, edge g n d → d ∈ concat (take k ws).
Proof.
  intros Hwf Hacyc.
  destruct (acyclic_final_state g Hwf Hacyc) as (st & Hws & Hreach & _).
  exists (waves st). split; [done|]. apply (reachable_level g st Hreach).
Qed.

Lemma buildExecutionWaves_levels_witness :
  wf_graph abc_graph ∧ acyclic abc_graph
  ∧ ∃ ws, buildExecutionWaves abc_graph = Some (Ok ws)
          ∧ ∀ k w, ws !! k = Some w →
              ∀ n, n ∈ w ↔
                n ∈ map_keys abc_graph ∧ (n ∉ concat (take k ws))
                ∧ ∀ d, edge abc_graph n d → d ∈ concat (take k ws).
Proof.
  assert (Hwf : wf_graph abc_graph) by compute_decision.
  assert (Hacyc : acyclic abc_graph) by (apply acyclicb_true; [done | vm_compute; reflexivity]).
  split_and!; [done | done | exact (buildExecutionWaves_levels abc_graph Hwf Hacyc)].
Defined.

(** X4: the waves do not depend on the order in which the graph lists
    its agents or a set its dependencies: two graphs with the same keys
    and the same edges, the first an acyclic dependency graph, get the
    same waves from [buildExecutionWaves]. *)
Theorem buildExecutionWaves_order_independent g1 g2 :
  wf_graph g1 → acyclic g1 → valid_graph g2 →
  map_keys g1 ≡ₚ map_keys g2 →
  (∀ n d, edge g1 n d ↔ edge g2 n d) →
  ∃ ws, buildExecutionWaves g1 = Some (Ok ws)
        ∧ buildExecutionWaves g2 = Some (Ok ws).
Proof.
  intros Hwf1 Hacyc1 Hvalid2 Hperm Hedges.
  assert (Hkeys : ∀ n, n ∈ map_keys g1 ↔ n ∈ map_keys g2).
  { intros n. by rewrite Hperm. }
  assert (Hwf2 : wf_graph g2).
  { split; [done|]. apply closed_graph_intro; [apply Hvalid2|].
    intros n m He. apply Hkeys. apply (wf_graph_closed g1 n m Hwf1). by apply Hedges. }
  assert (Hacyc2 : acyclic g2).
  { intros n Htc. apply (Hacyc1 n). apply (tc_edge_iff g2 g1); [|done].
    intros a b. by rewrite Hedges. }
  destruct (acyclic_final_state g1 Hwf1 Hacyc1) as (st1 & Hws1 & Hreach1 & Hrem1).
  destruct (acyclic_final_state g2 Hwf2 Hacyc2) as (st2 & Hws2 & Hreach2 & Hrem2).
  exists (waves st1). split; [done|]. rewrite Hws2. do 2 f_equal. symmetry.
  apply (level_waves_unique g1 g2); [done..| |]; by apply final_level_waves.
Qed.

Lemma buildExecutionWaves_order_independent_witness :
  wf_graph abc_graph ∧ acyclic abc_graph
  ∧ ∃ ws, buildExecutionWaves abc_graph = Some (Ok ws)
          ∧ buildExecutionWaves [("C", ["B"]); ("A", []); ("B", ["A"])] = Some (Ok ws).
Proof.
  assert (Hwf : wf_graph abc_graph) by compute_decision.
  assert (Hacyc : acyclic abc_graph) by (apply acyclicb_true; [done | vm_compute; reflexivity]).
  split_and!; [done | done |].
  apply (buildExecutionWaves_order_independent abc_graph
           [("C", ["B"]); ("A", []); ("B", ["A"])] Hwf Hacyc).
  - compute_decision.
  - apply NoDup_Permutation; [compute_decision | compute_decision |].
    intros n. split; revert n; apply Forall_forall; compute_decision.
  - intros n d. split; apply edges_included; compute_decision.
Defined.

(** X5: when the chaining fallback applies (mode [pipeline] or
    [sequential], no explicit or inverse edge declared), the graph of
    [buildDependencyGraph] is scheduled by [buildExecutionWaves] one agent
    a wave, in declaration order. *)
Theorem chain_runs_in_declaration_order d :
  wf_def d → chain_applies d →
  ∃ g, buildDependencyGraph d = Ok g
       ∧ buildExecutionWaves g = Some (Ok ((λ a, [a]) <$> def_agentOrder d)).
Proof.
  intros Hwf Happ.
  destruct (buildDependencyGraph_spec d Hwf) as (g & Hg & Hkeys & Hsets & Hedges).
  destruct Hedges as [[_ Hchain]|[Hnot _]]; [|done].
  destruct Hwf as [Hnd Horder].
  assert (HK : map_keys g = def_agentOrder d) by congruence.
  assert (HndO : NoDup (def_agentOrder d)) by by rewrite Horder.
  exists g. split; [done|]. apply waves_by_spec.
  - apply wf_graph_intro; [by rewrite HK|done|].
    intros n m He. apply Hchain in He as (i & _ & Hm). rewrite HK.
    by eapply list_elem_of_lookup_2.
  - by apply (chain_acyclic g (def_agentOrder d)).
  - by apply chain_level_waves.
Qed.

Lemma chain_runs_in_declaration_order_witness :
  wf_def pqr_def ∧ chain_applies pqr_def
  ∧ ∃ g, buildDependencyGraph pqr_def = Ok g
         ∧ buildExecutionWaves g = Some (Ok ((λ a, [a]) <$> def_agentOrder pqr_def)).
Proof.
  assert (Hwf : wf_def pqr_def) by compute_decision.
  assert (Happ : chain_applies pqr_def).
  { split; [by right | by apply no_declared_edge_check]. }
  split_and!; [done | done | exact (chain_runs_in_declaration_order pqr_def Hwf Happ)].
Defined.

(** X6: when no explicit or inverse edge is declared and the mode is
    neither [pipeline] nor [sequential], the agents of a definition that
    has some are all scheduled in one wave, which for ASCII names is in
    ascending order of the code units of the names. *)
Theorem undeclared_parallel_runs_in_one_wave d :
  wf_def d → (∀ n m, ¬ declared_edge d n m) →
  def_mode d ≠ "pipeline" → def_mode d ≠ "sequential" → def_agents d ≠ [] →
  ∃ g w, buildDependencyGraph d = Ok g
         ∧ buildExecutionWaves g = Some (Ok [w])
         ∧ w ≡ₚ map_keys (def_agents d)
         ∧ (Forall ascii_name (map_keys (def_agents d)) → Sorted name_le w).
Proof.
  intros Hwf Hnone Hp Hs Hne.
  destruct (buildDependencyGraph_spec d Hwf) as (g & Hg & Hkeys & Hsets & Hedges).
  destruct Hedges as [[[[?|?] _] _]|[_ Hdecl]]; [done..|].
  assert (Hflat : ∀ n m, ¬ edge g n m).
  { intros n m He. apply (Hnone n m). by apply Hdecl. }
  exists g, (sort_wave (map_keys g)). split_and!; [done| | |].
  - apply waves_by_spec.
    + apply wf_graph_intro; [rewrite Hkeys; apply Hwf|done|].
      intros n m He. destruct (Hflat n m He).
    + by apply flat_acyclic.
    + apply flat_level_waves; [rewrite Hkeys; apply Hwf| |done].
      rewrite Hkeys. unfold map_keys. by destruct (def_agents d).
  - rewrite <- Hkeys. apply sort_wave_perm.
  - intros _. apply sort_wave_ordered.
Qed.

Lemma undeclared_parallel_runs_in_one_wave_witness :
  wf_def (mk_def "parallel" [mk_agent "b" [] []; mk_agent "a" [] []])
  ∧ Forall ascii_name
      (map_keys (def_agents (mk_def "parallel" [mk_agent "b" [] []; mk_agent "a" [] []])))
  ∧ ∃ g, buildDependencyGraph (mk_def "parallel" [mk_agent "b" [] []; mk_agent "a" [] []])
         = Ok g
         ∧ buildExecutionWaves g = Some (Ok [["a"; "b"]])
         ∧ Sorted name_le ["a"; "b"].
Proof.
  assert (Hwf : wf_def (mk_def "parallel" [mk_agent "b" [] []; mk_agent "a" [] []]))
    by compute_decision.
  assert (Hascii : Forall ascii_name
            (map_keys (def_agents
               (mk_def "parallel" [mk_agent "b" [] []; mk_agent "a" [] []]))))
    by compute_decision.
  split_and!; [done..|].
  destruct (undeclared_parallel_runs_in_one_wave
              (mk_def "parallel" [mk_agent "b" [] []; mk_agent "a" [] []]) Hwf)
    as (g & w & Hg & Hws & Hperm & Hsorted); [|done..|].
  { by apply no_declared_edge_check. }
  exists g. split; [done|].
  assert (Hw : w = ["a"; "b"]).
  { injection Hg as <-. vm_compute in Hws. by injection Hws as <-. }
  rewrite Hw in Hws, Hsorted. split; [done|]. exact (Hsorted Hascii).
Defined.

(** X7: on every graph (each key once, each set element once)
    [detectCycles] returns, and it returns [null] exactly when the graph
    is acyclic and every dependency names a key of the graph: a
    dependency on a name that is no key is reported like a cycle. *)
Theorem detectCycles_null_iff g :
  valid_graph g →
  ∃ r, detectCycles g = Some r ∧ (r = None ↔ acyclic g ∧ closed_graph g).
Proof.
  intros Hvalid. destruct (detectCycles_total g Hvalid) as [r Hr].
  exists r. split; [done|]. rewrite <- (detectCycles_null g Hvalid), Hr.
  split; [by intros -> | by intros [= ->]].
Qed.

Lemma detectCycles_null_iff_witness :
  valid_graph [("A", ["Z"])]
  ∧ detectCycles [("A", ["Z"])] = Some (Some ["A"])
  ∧ ∃ r, detectCycles [("A", ["Z"])] = Some r
         ∧ (r = None ↔ acyclic [("A", ["Z"])] ∧ closed_graph [("A", ["Z"])]).
Proof.
  assert (Hvalid : valid_graph [("A", ["Z"])]) by compute_decision.
  split_and!; [done | vm_compute; reflexivity | exact (detectCycles_null_iff _ Hvalid)].
Defined.

(** X8: a list [detectCycles] returns is never empty, and it holds keys
    of the graph, each once, in the order of the graph. *)
Theorem detectCycles_list_shape g :
  valid_graph g →
  ∃ r, detectCycles g = Some r
       ∧ ∀ l, r = Some l → l ≠ [] ∧ NoDup l ∧ l `sublist_of` map_keys g.
Proof.
  intros Hvalid. destruct (detectCycles_total g Hvalid) as [r Hr].
  exists r. split; [done|]. intros l ->.
  pose proof (detectCycles_list_nonempty g l Hvalid Hr) as Hne.
  destruct (detectCycles_list g l Hvalid Hr) as (sorted & -> & Hlen & Hnd & Hknown & _).
  split_and!.
  - done.
  - apply NoDup_filter, Hvalid.
  - apply sublist_filter.
Qed.

Lemma detectCycles_list_shape_witness :
  valid_graph mn_graph
  ∧ ∃ r, detectCycles mn_graph = Some r
         ∧ ∀ l, r = Some l → l ≠ [] ∧ NoDup l ∧ l `sublist_of` map_keys mn_graph.
Proof.
  assert (Hvalid : valid_graph mn_graph) by compute_decision.
  split; [done | exact (detectCycles_list_shape mn_graph Hvalid)].
Defined.

(** X9: a list [detectCycles] returns holds every agent that is on a
    cycle and, with an agent, every agent that depends on it; each agent
    of the list has a dependency that is in the list or is no key of the
    graph. So the list holds more than the agents on cycles: it holds all
    the agents that can never be scheduled. *)
Theorem detectCycles_list_closed g :
  valid_graph g →
  ∃ r, detectCycles g = Some r
       ∧ ∀ l, r = Some l →
           (∀ n, tc (edge g) n n → n ∈ l)
           ∧ (∀ n d, edge g n d → d ∈ l → n ∈ l)
           ∧ (∀ n, n ∈ l → ∃ d, edge g n d ∧ (d ∈ l ∨ d ∉ map_keys g)).
Proof.
  intros Hvalid. destruct (detectCycles_total g Hvalid) as [r Hr].
  exists r. split; [done|]. intros l ->.
  destruct (detectCycles_list g l Hvalid Hr)
    as (sorted & -> & _ & Hnd & Hknown & Htopo & Hiff).
  split_and!.
  - intros n Htc. by apply (detectCycles_cycle_listed g _ n Hvalid Hr).
  - intros n d He Hd. apply list_elem_of_filter in Hd as [Hd _].
    apply list_elem_of_filter. split; [|by eapply edge_source].
    intros Hn. destruct He as (s & Hs & Hds). apply Hd.
    by apply (Hiff n s Hs).
  - intros n Hn. apply list_elem_of_filter in Hn as [Hout HK].
    apply map_get_is_Some in HK as [s Hs].
    destruct (waiting_on sorted s) as [|d rest] eqn:Hw.
    { destruct Hout. apply (Hiff n s Hs). by apply waiting_on_empty_iff. }
    assert (Hd : d ∈ waiting_on sorted s) by (rewrite Hw; left).
    apply list_elem_of_filter in Hd as [Hdout Hds].
    exists d. split; [by exists s|].
    destruct (decide (d ∈ map_keys g)); [left|by right].
    by apply list_elem_of_filter.
Qed.

Lemma detectCycles_list_closed_witness :
  valid_graph tail_graph
  ∧ detectCycles tail_graph = Some (Some ["A"; "B"; "C"])
  ∧ ∃ r, detectCycles tail_graph = Some r
         ∧ ∀ l, r = Some l →
             (∀ n, tc (edge tail_graph) n n → n ∈ l)
             ∧ (∀ n d, edge tail_graph n d → d ∈ l → n ∈ l)
             ∧ (∀ n, n ∈ l →
                  ∃ d, edge tail_graph n d ∧ (d ∈ l ∨ d ∉ map_keys tail_graph)).
Proof.
  assert (Hvalid : valid_graph tail_graph) by compute_decision.
  split_and!; [done | vm_compute; reflexivity
              | exact (detectCycles_list_closed tail_graph Hvalid)].
Defined.

(** X10: the snapshot on disk follows every mutation. After [init] and
    any further sequence of calls of [init], [updateAgent],
    [updatePipeline], [appendLog] and [appendOrchestratorLog], [load()] on
    a fresh tracker of the same run returns the state the first tracker
    holds in memory, when no [init] lists the name [__proto__] and no
    [updateAgent] is for a name that every object inherits a property
    for. *)
Theorem reload_after_any_calls workspaceDir name agentNames targetCount mode ops w :
  "__proto__" ∉ agentNames → Forall plain_op ops →
  reload workspaceDir name
    (run_ops (op_init agentNames targetCount mode :: ops)
       (new_StateTracker workspaceDir name w)).2
  = Some (state
      (run_ops (op_init agentNames targetCount mode :: ops)
         (new_StateTracker workspaceDir name w)).1).
Proof.
  intros Hnames Hops.
  set (tw := run_op (new_StateTracker workspaceDir name w)
               (op_init agentNames targetCount mode)).
  change (run_ops (op_init agentNames targetCount mode :: ops)
            (new_StateTracker workspaceDir name w)) with (run_ops ops tw).
  assert (Hfile : files tw.2 !! statePath tw.1 = Some (state_to_json (state tw.1))).
  { unfold tw. simpl. apply lookup_insert_eq. }
  assert (Hown : ss_agents_proto (state tw.1) = false).
  { unfold tw. simpl. by rewrite seeded_proto. }
  apply (run_ops_persisted ops) in Hfile.
  apply (run_ops_own ops) in Hown; [|done].
  unfold reload, new_StateTracker. simpl.
  rewrite <- (snapshot_own (state (run_ops ops tw).1)) at 1 by done.
  apply load_persisted; [|done].
  rewrite run_ops_swarmDir. done.
Qed.

Lemma reload_after_any_calls_witness :
  ("__proto__" ∉ ["a"; "constructor"])
  ∧ Forall plain_op
      [op_updateAgent "a" (failed_update "boom"); op_appendLog "a" "gave up";
       op_init ["b"] 2 "pipeline"; op_updateAgent "ghost" (failed_update "lost")]
  ∧ reload "/work" "run"
      (run_ops
         (op_init ["a"; "constructor"] 1 "parallel"
          :: [op_updateAgent "a" (failed_update "boom"); op_appendLog "a" "gave up";
              op_init ["b"] 2 "pipeline"; op_updateAgent "ghost" (failed_update "lost")])
         (new_StateTracker "/work" "run" empty_world)).2
    = Some (state
        (run_ops
           (op_init ["a"; "constructor"] 1 "parallel"
            :: [op_updateAgent "a" (failed_update "boom"); op_appendLog "a" "gave up";
                op_init ["b"] 2 "pipeline"; op_updateAgent "ghost" (failed_update "lost")])
           (new_StateTracker "/work" "run" empty_world)).1).
Proof.
  assert (Hnames : "__proto__" ∉ ["a"; "constructor"]) by compute_decision.
  assert (Hops : Forall plain_op
            [op_updateAgent "a" (failed_update "boom"); op_appendLog "a" "gave up";
             op_init ["b"] 2 "pipeline"; op_updateAgent "ghost" (failed_update "lost")])
    by compute_decision.
  split_and!; [done..|].
  exact (reload_after_any_calls "/work" "run" ["a"; "constructor"] 1 "parallel" _
           empty_world Hnames Hops).
Defined.



(** X15: when [executeSwarmAgent] calls the external executor for an
    agent the tracker knows, the snapshot on disk already shows the agent
    as [running] in this iteration with its start time, the log of the
    agent ends with the line of the start, and the executor gets the
    workspace as directory, the agent's task, the identifier of the run,
    agent and iteration, no LSP and the context directory of the run. The
    error text and completion time of an earlier iteration are still in
    the state at that moment. The snapshot is the document of the state
    in memory, which holds the agent whenever its name is not
    [__proto__]. *)
Theorem executeSwarmAgent_call runSubprocess agent index options t w a0 :
  ss_agents (state t) !! agent_name agent = Some a0 →
  ∃ args w1,
    (executeSwarmAgent runSubprocess agent index options t w).1.1
    = (runSubprocess args w1).1
    ∧ sp_cwd args = opt_workspace options
    ∧ sp_task args = agent_task agent
    ∧ sp_index args = index
    ∧ sp_id args
      = "swarm-" +:+ opt_swarmName options +:+ "-" +:+ agent_name agent
        +:+ "-" +:+ pretty (opt_iteration options)
    ∧ sp_modelOverride args = opt_modelOverride options
    ∧ sp_enableLsp args = false
    ∧ sp_artifactsDir args = path_join [swarmDir t; "context"]
    ∧ ad_systemPrompt (sp_agent args) = buildSystemPrompt agent
    ∧ ∃ s1 a1 lines stamp,
        files w1 !! statePath t = Some (state_to_json s1)
        ∧ ss_agents s1 !! agent_name agent = Some a1
        ∧ as_status a1 = agent_running
        ∧ as_iteration a1 = opt_iteration options
        ∧ as_startedAt a1 = Some (clock w (ticks w))
        ∧ as_completedAt a1 = as_completedAt a0
        ∧ as_error a1 = as_error a0
        ∧ logs w1 !! path_join [swarmDir t; "logs"; agent_name agent +:+ ".log"]
          = Some (lines ++
              [(stamp, "Starting iteration " +:+ pretty (opt_iteration options))])
        ∧ (agent_name agent ≠ "__proto__" →
             own_agents s1 !! agent_name agent = Some a1).
Proof.
  intros Ha0. unfold executeSwarmAgent.
  cbv beta iota zeta delta [date_now]. rewrite (updateAgent_tracked _ _ _ _ _ Ha0).
  match goal with
  | |- context [runSubprocess ?args ?w1] =>
      exists args, w1; destruct (runSubprocess args w1) as [outcome w2] eqn:Hcall
  end.
  split.
  { destruct outcome as [result|err];
      repeat match goal with
             | |- context [updateAgent ?n ?u ?t0 ?w0] =>
                 destruct (updateAgent n u t0 w0) as [? ?]
             end; done. }
  do 8 (split; [reflexivity|]).
  eexists _, _, _, _. split; [simpl; apply lookup_insert_eq|].
  split; [simpl; apply lookup_insert_eq|].
  do 5 (split; [reflexivity|]).
  split; [simpl; apply lookup_insert_eq|].
  intros Hname. rewrite own_agents_lookup by done. simpl. apply lookup_insert_eq.
Qed.

Lemma executeSwarmAgent_call_witness :
  ss_agents (state tracked_run.1) !! agent_name agent_a = Some (seed_agent "a")
  ∧ ∃ args w1,
      (executeSwarmAgent throwing_executor agent_a 0%Z run_options
         tracked_run.1 tracked_run.2).1.1
      = (throwing_executor args w1).1
      ∧ sp_id args = "swarm-run-a-1"
      ∧ sp_artifactsDir args = "/work/.swarm_run/context".
Proof.
  assert (Htracked : ss_agents (state tracked_run.1) !! agent_name agent_a
                     = Some (seed_agent "a")) by (vm_compute; reflexivity).
  split; [done|].
  destruct (executeSwarmAgent_call throwing_executor agent_a 0%Z run_options
              tracked_run.1 tracked_run.2 (seed_agent "a") Htracked)
    as (args & w1 & Hout & _ & _ & _ & Hid & _ & _ & Hdir & _).
  exists args, w1. split_and!; [done | by rewrite Hid | by rewrite Hdir].
Defined.

(** X16: for every swarm definition the planning part of
    [run-pipeline.ts] ends in one of two ways and never with an exception:
    it exits with code 1 and a non-empty list of agents when the graph of
    the definition has a cycle, or it gets waves that hold every agent of
    the definition exactly once, and then the tracker it initialises knows
    every agent of every wave, as [pending]. *)
Theorem plan_ends d :
  wf_def d →
  ∃ out, plan d = Some out
         ∧ match out with
           | plan_exit code cycles =>
               code = 1%Z ∧ cycles ≠ []
               ∧ ∃ g, buildDependencyGraph d = Ok g ∧ ¬ acyclic g
           | plan_waves ws banner =>
               concat ws ≡ₚ map_keys (def_agents d)
               ∧ banner = waves_banner ws
               ∧ (∃ g, buildDependencyGraph d = Ok g ∧ acyclic g)
               ∧ ∀ workspace w n, n ∈ concat ws →
                   ss_agents (state (start_tracker d workspace w).1) !! n
                   = Some (seed_agent n)
           | plan_throw e => False
           end.
Proof.
  intros Hwf. unfold plan.
  destruct (buildDependencyGraph_spec d Hwf) as (g & Hg & Hkeys & _).
  destruct (buildDependencyGraph_wf d Hwf) as (g' & Hg' & Hwfg).
  assert (g' = g) as -> by congruence.
  rewrite Hg. destruct Hwfg as [Hvalid Hclosed].
  destruct (detectCycles_total g Hvalid) as [r Hr]. rewrite Hr. simpl.
  destruct r as [l|].
  - eexists. split; [done|]. split_and!; [done| |].
    + by apply (detectCycles_list_nonempty g).
    + exists g. split; [done|]. intros Hacyc.
      assert (Hnull : detectCycles g = Some None) by by apply detectCycles_null.
      congruence.
  - destruct (detectCycles_gate g Hvalid Hr) as [ws Hws]. rewrite Hws. simpl.
    eexists. split; [done|].
    pose proof (returned_waves_cover g ws (proj1 Hvalid) Hws) as Hperm.
    split_and!.
    + by rewrite <- Hkeys.
    + done.
    + exists g. split; [done|]. by apply (detectCycles_null g Hvalid).
    + intros workspace w n Hn. unfold start_tracker, new_StateTracker, init. simpl.
      rewrite seeded_lookup. rewrite decide_True; [done|].
      rewrite <- Hkeys. by rewrite <- Hperm.
Qed.

Lemma plan_ends_witness :
  wf_def abc_def
  ∧ plan abc_def
    = Some (plan_waves [["A"]; ["B"]; ["C"]] "Waves: W1:[A] -> W2:[B] -> W3:[C]")
  ∧ ∃ out, plan abc_def = Some out
           ∧ match out with
             | plan_exit code cycles =>
                 code = 1%Z ∧ cycles ≠ []
                 ∧ ∃ g, buildDependencyGraph abc_def = Ok g ∧ ¬ acyclic g
             | plan_waves ws banner =>
                 concat ws ≡ₚ map_keys (def_agents abc_def)
                 ∧ banner = waves_banner ws
                 ∧ (∃ g, buildDependencyGraph abc_def = Ok g ∧ acyclic g)
                 ∧ ∀ workspace w n, n ∈ concat ws →
                     ss_agents (state (start_tracker abc_def workspace w).1) !! n
                     = Some (seed_agent n)
             | plan_throw e => False
             end.
Proof.
  assert (Hwf : wf_def abc_def) by compute_decision.
  split_and!; [done | vm_compute; reflexivity | exact (plan_ends abc_def Hwf)].
Defined.

(** X17: a definition in which an agent names itself in its [waits_for]
    or [reports_to] does not reach the scheduler: the planning part of
    [run-pipeline.ts] exits with code 1, and the list it reports holds
    that agent. *)
Theorem plan_rejects_self_dependency d n a :
  wf_def d → (n, a) ∈ def_agents d → n ∈ waitsFor a ∨ n ∈ reportsTo a →
  ∃ cycles, plan d = Some (plan_exit 1 cycles) ∧ n ∈ cycles.
Proof.
  intros Hwf Hin Hself. unfold plan.
  destruct (buildDependencyGraph_spec d Hwf) as (g & Hg & Hkeys & _ & Hedges).
  destruct (buildDependencyGraph_wf d Hwf) as (g' & Hg' & Hwfg).
  assert (g' = g) as -> by congruence.
  rewrite Hg. destruct Hwfg as [Hvalid Hclosed].
  assert (Hdecl : declared_edge d n n).
  { assert (n ∈ map_keys (def_agents d)).
    { apply list_elem_of_fmap. by exists (n, a). }
    split_and!; [done..|]. destruct Hself; [left|right]; eauto. }
  assert (He : edge g n n).
  { destruct Hedges as [[[_ Hnone] _]|[_ Hdeclared]].
    - destruct (Hnone n n Hdecl).
    - by apply Hdeclared. }
  assert (Htc : tc (edge g) n n) by by apply tc_once.
  destruct (detectCycles_total g Hvalid) as [r Hr]. rewrite Hr. simpl.
  destruct r as [l|].
  - exists l. split; [done|]. by apply (detectCycles_cycle_listed g l n).
  - apply (detectCycles_null g Hvalid) in Hr as [Hacyc _]. destruct (Hacyc n Htc).
Qed.

Lemma plan_rejects_self_dependency_witness :
  wf_def self_def
  ∧ ∃ cycles, plan self_def = Some (plan_exit 1 cycles) ∧ "A" ∈ cycles.
Proof.
  assert (Hwf : wf_def self_def) by compute_decision.
  split; [done|].
  apply (plan_rejects_self_dependency self_def "A" (mk_agent "A" ["A"] []) Hwf).
  - left.
  - left. left.
Defined.
